(** * Rock-paper-scissors-spock-lizard: the round and match engine

    A shallow embedding of [rps/rock_paper_scissors.py].  The Python module
    keeps its configuration in three global tables ([SETTINGS], [COMMANDS],
    [MOVES]) and the match in one mutable dictionary that [process_round]
    updates in place.  Here the tables are records and association lists
    (a Python [dict] keeps insertion order and the code iterates over it),
    the match dictionary is a record threaded through the functions, an
    exception is a [Raise] result that still carries the dictionary as the
    exception left it, and the console is a list of pending input lines
    together with an oracle for [random.choice].

    Printing, screen clearing and [sleep] do not touch the match, and are
    left out of the functions that drive a match; with them go the
    exceptions only they could raise: a message missing from the message
    table (which is not part of the sources), a negative scoreboard width,
    and the [RecursionError] that ends a run of several hundred requests
    for help in a row.  What is proved about a whole call of [play_round],
    [play_game] or a prompt therefore speaks of the dictionary the call
    ends on, or of a call that ends in a given way; it never lists all the
    ways a call can end. *)

From Stdlib Require Import String Ascii List ZArith Bool Lia DecimalString.
Import ListNotations.

Local Open Scope string_scope.
Local Open Scope list_scope.
Local Open Scope Z_scope.

(** ** Python strings

    A string is modelled by the bytes of its UTF-8 encoding.  Every string
    the program itself holds (move names, aliases, command tokens, the
    opponent's name) is 7-bit, so that a byte is a character there; only a
    typed line can hold other characters, and the program does nothing
    with a typed line but lower it and compare it with its tokens.

    [str.lower] turns the letters [A]-[Z] into [a]-[z] and the Kelvin sign
    (U+212A, bytes 226 132 170) into [k].  The Kelvin sign is the only
    character outside the 7-bit range whose lower-case form lies inside
    it; the lower-case form of every other such character has a byte above
    127, and the model keeps these characters as they are: which bytes above
    127 a lowered line holds makes no difference to a comparison with 7-bit
    tokens. *)

Module PyStr.

Definition is_upper (c : ascii) : bool :=
  let n := N_of_ascii c in ((65 <=? n) && (n <=? 90))%N.

Definition is_lower (c : ascii) : bool :=
  let n := N_of_ascii c in ((97 <=? n) && (n <=? 122))%N.

Definition lower_char (c : ascii) : ascii :=
  if is_upper c then ascii_of_N (N_of_ascii c + 32) else c.

Definition upper_char (c : ascii) : ascii :=
  if is_lower c then ascii_of_N (N_of_ascii c - 32) else c.

(** The Kelvin sign, in UTF-8. *)
Definition kelvin_sign : string :=
  String "226" (String "132" (String "170" EmptyString)).

Definition is_kelvin (c1 c2 c3 : ascii) : bool :=
  ((N_of_ascii c1 =? 226) && (N_of_ascii c2 =? 132)
   && (N_of_ascii c3 =? 170))%N.

(** What follows a Kelvin sign at the head of [s], if there is one. *)
Definition after_kelvin (s : string) : option string :=
  match s with
  | String c1 (String c2 (String c3 rest)) =>
      if is_kelvin c1 c2 c3 then Some rest else None
  | _ => None
  end.

(** [s.lower()] *)
Fixpoint lower (s : string) : string :=
  match s with
  | EmptyString => EmptyString
  | String c rest =>
      match rest with
      | String c2 (String c3 rest') =>
          if is_kelvin c c2 c3 then String "k" (lower rest')
          else String (lower_char c) (lower rest)
      | _ => String (lower_char c) (lower rest)
      end
  end.

(** Two strings that differ in the case of their 7-bit letters only. *)
Fixpoint same_case (s t : string) : Prop :=
  match s, t with
  | EmptyString, EmptyString => True
  | String a s', String b t' =>
      lower_char a = lower_char b /\ same_case s' t'
  | _, _ => False
  end.

(** [len(s)], for the 7-bit strings it is applied to. *)
Definition len (s : string) : Z := Z.of_nat (String.length s).

(** [x in xs] for a list of strings: equality with some element. *)
Definition contains (x : string) (xs : list string) : bool :=
  existsb (String.eqb x) xs.

(** Truth value of [None] or a string: [None] and [""] are false. *)
Definition truthy (v : option string) : bool :=
  match v with
  | None => false
  | Some s => negb (s =? "")%string
  end.

(** [v == s] where [v] is [None] or a string. *)
Definition eq_str (v : option string) (s : string) : bool :=
  match v with
  | None => false
  | Some x => (x =? s)%string
  end.

(** One way of writing a token in another letter case: the characters
    whose mask bit is set are upper-cased, the others are kept. *)
Fixpoint recase (mask : list bool) (s : string) {struct s} : string :=
  match s with
  | EmptyString => EmptyString
  | String c rest =>
      match mask with
      | [] => s
      | b :: mask' =>
          String (if b then upper_char c else c) (recase mask' rest)
      end
  end.

(** ASCII space, tab, line feed, vertical tab, form feed, carriage
    return: what [str.strip] with no argument removes among 7-bit
    characters. *)
Definition is_space (c : ascii) : bool :=
  let n := N_of_ascii c in ((n =? 32) || ((9 <=? n) && (n <=? 13)))%N.

(** Whether some character of [s] is one of those. *)
Fixpoint has_space (s : string) : bool :=
  match s with
  | EmptyString => false
  | String c rest => is_space c || has_space rest
  end.

End PyStr.

(** ** Building and formatting text *)

Module PyText.

(** [str(n)] for an integer. *)
Definition str (n : Z) : string := NilZero.string_of_int (Z.to_int n).

(** The characters of a string, each as a string: what iterating over a
    string yields. *)
Fixpoint chars (s : string) : list string :=
  match s with
  | EmptyString => []
  | String c rest => String c EmptyString :: chars rest
  end.

(** [sep.join(items)] *)
Fixpoint join (sep : string) (items : list string) : string :=
  match items with
  | [] => EmptyString
  | [x] => x
  | x :: rest => (x ++ sep ++ join sep rest)%string
  end.

(** [s.capitalize()]: first character in upper case, the others in lower
    case. *)
Definition capitalize (s : string) : string :=
  match s with
  | EmptyString => EmptyString
  | String c rest => String (PyStr.upper_char c) (PyStr.lower rest)
  end.

(** [c * n] for a one-character string and a natural number. *)
Fixpoint fill (c : ascii) (n : nat) : string :=
  match n with
  | O => EmptyString
  | S n' => String c (fill c n')
  end.

(** [s * n]: nothing when [n] is not positive. *)
Definition times (c : ascii) (n : Z) : string := fill c (Z.to_nat n).

(** The padding a format specification of the given width adds to [s]:
    none when [s] is at least that long.  Python refuses a negative width;
    the widths used below are not negative. *)
Definition padding (width : Z) (s : string) : nat :=
  Z.to_nat width - String.length s.

(** [f"{s:<width}"], [f"{s:>width}"] and [f"{s:c^width}"].  Centring puts
    the smaller half of an odd padding on the left. *)
Definition format_left (width : Z) (s : string) : string :=
  (s ++ fill " " (padding width s))%string.

Definition format_right (width : Z) (s : string) : string :=
  (fill " " (padding width s) ++ s)%string.

Definition format_center (c : ascii) (width : Z) (s : string) : string :=
  let pad := padding width s in
  let left := Nat.div pad 2 in
  (fill c left ++ s ++ fill c (pad - left))%string.

End PyText.

(** ** The global tables *)

Record settings := {
  opponent_name : string;
  scoreboard_width : Z;
  points_to_win : Z
}.

Definition SETTINGS : settings := {|
  opponent_name := "Monty";
  scoreboard_width := 23;
  points_to_win := 3
|}.

Definition COMMANDS : list (string * string) :=
  [("help", "h"); ("quit", "q!")].

Record move_details := {
  alias : string;
  beats : list string
}.

(** A [dict] from move name to details, in insertion order. *)
Definition catalog := list (string * move_details).

Definition MOVES : catalog := [
  ("rock",    {| alias := "r"; beats := ["scissor"; "lizard"] |});
  ("paper",   {| alias := "p"; beats := ["rock"; "spock"] |});
  ("scissor", {| alias := "s"; beats := ["paper"; "lizard"] |});
  ("spock",   {| alias := "k"; beats := ["rock"; "scissor"] |});
  ("lizard",  {| alias := "l"; beats := ["paper"; "spock"] |})
].

(** ** Exceptions and results *)

Inductive exn :=
| KeyError (key : string)
| IndexError
| EOFError
| SystemExit.

Inductive res (A : Type) :=
| Ok (a : A)
| Raise (e : exn).
Arguments Ok {A} a.
Arguments Raise {A} e.

(** [d.keys()] and [d.values()] *)
Definition keys {V : Type} (d : list (string * V)) : list string :=
  map fst d.

Definition values {V : Type} (d : list (string * V)) : list V :=
  map snd d.

(** [d[k]]: the entry of [k], or [KeyError]. *)
Fixpoint getitem {V : Type} (d : list (string * V)) (k : string) : res V :=
  match d with
  | [] => Raise (KeyError k)
  | (k', v) :: d' => if (k =? k')%string then Ok v else getitem d' k
  end.

(** ** The match dictionary *)

Record game := {
  current_round : Z;
  tiebreaker_round : bool;
  user_score : Z;
  opponent_score : Z;
  round_winner : option string;
  grand_winner : option string
}.

Definition create_game : game := {|
  current_round := 1;
  tiebreaker_round := false;
  user_score := 0;
  opponent_score := 0;
  round_winner := None;
  grand_winner := None
|}.

Definition set_current_round (v : Z) (g : game) : game :=
  {| current_round := v;
     tiebreaker_round := tiebreaker_round g;
     user_score := user_score g;
     opponent_score := opponent_score g;
     round_winner := round_winner g;
     grand_winner := grand_winner g |}.

Definition set_tiebreaker_round (v : bool) (g : game) : game :=
  {| current_round := current_round g;
     tiebreaker_round := v;
     user_score := user_score g;
     opponent_score := opponent_score g;
     round_winner := round_winner g;
     grand_winner := grand_winner g |}.

Definition set_user_score (v : Z) (g : game) : game :=
  {| current_round := current_round g;
     tiebreaker_round := tiebreaker_round g;
     user_score := v;
     opponent_score := opponent_score g;
     round_winner := round_winner g;
     grand_winner := grand_winner g |}.

Definition set_opponent_score (v : Z) (g : game) : game :=
  {| current_round := current_round g;
     tiebreaker_round := tiebreaker_round g;
     user_score := user_score g;
     opponent_score := v;
     round_winner := round_winner g;
     grand_winner := grand_winner g |}.

Definition set_round_winner (v : option string) (g : game) : game :=
  {| current_round := current_round g;
     tiebreaker_round := tiebreaker_round g;
     user_score := user_score g;
     opponent_score := opponent_score g;
     round_winner := v;
     grand_winner := grand_winner g |}.

Definition set_grand_winner (v : option string) (g : game) : game :=
  {| current_round := current_round g;
     tiebreaker_round := tiebreaker_round g;
     user_score := user_score g;
     opponent_score := opponent_score g;
     round_winner := round_winner g;
     grand_winner := v |}.

(** ** The console

    The lines still to be typed, and the oracle behind [random.choice]:
    its [n]-th draw is [rand n]. *)

Record world := {
  stdin : list string;
  rand : nat -> nat;
  drawn : nat
}.

Definition set_stdin (v : list string) (w : world) : world :=
  {| stdin := v; rand := rand w; drawn := drawn w |}.

Definition set_drawn (v : nat) (w : world) : world :=
  {| stdin := stdin w; rand := rand w; drawn := v |}.

(** The three readings of a recorded round winner, in the order
    [display_round_results] tests them. *)
Inductive RoundOutcome := UserWins | OpponentWins | Tie.

(** ** The program, over its global tables *)

Section Program.

Variable cfg : settings.
Variable tbl : catalog.

(** *** Input classification *)

Definition is_valid_input (input_str : string) : bool :=
  let moves := keys tbl ++ map alias (values tbl) in
  let commands := keys COMMANDS ++ values COMMANDS in
  let valid_inputs := moves ++ commands in
  PyStr.contains input_str valid_inputs.

Definition get_input_type (input_str : string) : string :=
  if negb (is_valid_input input_str) then "invalid"
  else
    let commands := keys COMMANDS ++ values COMMANDS in
    if PyStr.contains input_str commands then "command"
    else "move".

Fixpoint expand_in (items : catalog) (a : string) : string :=
  match items with
  | [] => a
  | (move, details) :: items' =>
      if (a =? alias details)%string then move else expand_in items' a
  end.

Definition expand_move_abbreviation (a : string) : string :=
  expand_in tbl a.

(** *** One round *)

Definition determine_round_winner (user_move opponent_move : string)
  : res (option string) :=
  match getitem tbl user_move with
  | Raise e => Raise e
  | Ok user_details =>
      let winner :=
        if PyStr.contains opponent_move (beats user_details)
        then Some "user" else None in
      match getitem tbl opponent_move with
      | Raise e => Raise e
      | Ok opponent_details =>
          Ok (if PyStr.contains user_move (beats opponent_details)
              then Some (opponent_name cfg) else winner)
      end
  end.

Definition determine_grand_winner (g : game) : option string :=
  if user_score g >? 2 then Some "user"
  else if opponent_score g >? 2 then Some (opponent_name cfg)
  else None.

Definition increment_score (winner : option string) (g : game) : game :=
  let g1 :=
    if PyStr.eq_str winner "user"
    then set_user_score (user_score g + 1) g else g in
  if PyStr.eq_str winner (opponent_name cfg)
  then set_opponent_score (opponent_score g1 + 1) g1 else g1.

(** The result pairs what the call did (returned, or raised) with the
    dictionary as the call left it. *)
Definition process_round (g : game) (user_move opponent_move : string)
  : res unit * game :=
  let g := set_current_round (current_round g + 1) g in
  match determine_round_winner user_move opponent_move with
  | Raise e => (Raise e, g)
  | Ok winner =>
      let g := increment_score winner g in
      let g := set_round_winner winner g in
      let g := set_grand_winner (determine_grand_winner g) g in
      let g :=
        set_tiebreaker_round
          ((user_score g =? 2) && (opponent_score g =? 2)) g in
      (Ok tt, g)
  end.

(** How [display_round_results] reads a recorded winner. *)
Definition round_outcome (winner : option string) : RoundOutcome :=
  if PyStr.eq_str winner "user" then UserWins
  else if PyStr.eq_str winner (opponent_name cfg) then OpponentWins
  else Tie.

(** [user_input = input(...).lower()] followed by [get_input_type] in
    [play_round], and the expansion of a one-letter token at the head of
    [process_moves]: the canonical move a typed line stands for, or [None]
    when the line is not handed to [process_moves]. *)
Definition classify (raw : string) : option string :=
  let user_input := PyStr.lower raw in
  if (get_input_type user_input =? "move")%string
  then Some (if PyStr.len user_input =? 1
             then expand_move_abbreviation user_input
             else user_input)
  else None.

(** A run of unguarded [process_round] calls on one dictionary, stopping
    at the first exception. *)
Fixpoint process_rounds (g : game) (rounds : list (string * string))
  : res unit * game :=
  match rounds with
  | [] => (Ok tt, g)
  | (user_move, opponent_move) :: rest =>
      match process_round g user_move opponent_move with
      | (Raise e, g') => (Raise e, g')
      | (Ok _, g') => process_rounds g' rest
      end
  end.

(** *** The console and the match loop

    Of a call, these functions keep what it reads, what it draws and what
    it does to the dictionary.  What it prints is left out, and so is an
    exception raised while printing (a key missing from [MESSAGES] in
    [display_round_results], [display_game_results] or [exit_program], a
    negative [scoreboard_width] in [display_scoreboard]) or by the depth
    of the nested calls (the [RecursionError] that several hundred
    requests for help in a row end on, in [prompt_enter_lines]). *)

(** [input()] on the pending lines: the next line, or [EOFError]. *)
Definition input (w : world) : res string * world :=
  match stdin w with
  | [] => (Raise EOFError, w)
  | line :: rest => (Ok line, set_stdin rest w)
  end.

(** [random.choice(seq)]: one element of [seq], picked by the oracle. *)
Definition random_choice (seq : list string) (w : world)
  : res string * world :=
  match seq with
  | [] => (Raise IndexError, w)
  | x :: _ =>
      (Ok (nth (Nat.modulo (rand w (drawn w)) (length seq)) seq x),
       set_drawn (S (drawn w)) w)
  end.

(** [prompt_enter_to_continue] and [process_command] call each other; each
    call of the former reads one line, so the pair is a recursion on the
    pending lines.  [process_command]'s branch is written in place here;
    [process_command] below is the function itself. *)
Fixpoint prompt_enter_lines (allow_command : bool) (lines : list string)
  : res unit * list string :=
  match lines with
  | [] => (Raise EOFError, [])
  | line :: rest =>
      let user_input := PyStr.lower line in
      if allow_command && (get_input_type user_input =? "command")%string
      then
        if PyStr.contains user_input ["help"; "h"]
        then prompt_enter_lines true rest
        else (Raise SystemExit, rest)
      else (Ok tt, rest)
  end.

Definition prompt_enter_to_continue (allow_command : bool) (w : world)
  : res unit * world :=
  let (r, rest) := prompt_enter_lines allow_command (stdin w) in
  (r, set_stdin rest w).

Definition process_command (command : string) (w : world)
  : res unit * world :=
  if PyStr.contains command ["help"; "h"]
  then prompt_enter_to_continue true w
  else (Raise SystemExit, w).

Definition process_moves (g : game) (user_move opponent_move : string)
  (w : world) : res unit * game * world :=
  let user_move :=
    if PyStr.len user_move =? 1
    then expand_move_abbreviation user_move else user_move in
  match process_round g user_move opponent_move with
  | (Raise e, g') => (Raise e, g', w)
  | (Ok _, g') =>
      (* display_round_results ends with prompt_enter_to_continue() *)
      let (r, w') := prompt_enter_to_continue true w in (r, g', w')
  end.

(** The [while True] of [play_round].  Every turn of the loop reads a
    line, so [fuel] above the number of pending lines is never used up;
    [None] is the exhausted fuel, not a behaviour of the program. *)
Fixpoint play_round_loop (fuel : nat) (g : game) (w : world)
  : option (res unit * game * world) :=
  match fuel with
  | O => None
  | S fuel' =>
      match input w with
      | (Raise e, w1) => Some (Raise e, g, w1)
      | (Ok line, w1) =>
          let user_input := PyStr.lower line in
          let input_type := get_input_type user_input in
          if (input_type =? "move")%string then
            match random_choice (keys tbl) w1 with
            | (Raise e, w2) => Some (Raise e, g, w2)
            | (Ok opponent_move, w2) =>
                Some (process_moves g user_input opponent_move w2)
            end
          else
            let (r, w2) :=
              if (input_type =? "command")%string
              then process_command user_input w1
              else prompt_enter_to_continue true w1 in
            match r with
            | Raise e => Some (Raise e, g, w2)
            | Ok _ => play_round_loop fuel' g w2
            end
      end
  end.

Definition play_round (g : game) (w : world)
  : option (res unit * game * world) :=
  play_round_loop (S (length (stdin w))) g w.

(** [while not game["grand_winner"]: play_round(game)].  The guard is
    tested before anything else, also before the fuel. *)
Fixpoint play_game_loop (fuel : nat) (g : game) (w : world)
  : option (res unit * game * world) :=
  if negb (PyStr.truthy (grand_winner g)) then
    match fuel with
    | O => None
    | S fuel' =>
        match play_round g w with
        | None => None
        | Some (Raise e, g', w') => Some (Raise e, g', w')
        | Some (Ok _, g', w') => play_game_loop fuel' g' w'
        end
    end
  else Some (Ok tt, g, w).

Definition play_game (w : world) : option (res unit * game * world) :=
  match play_game_loop (S (length (stdin w))) create_game w with
  | Some (Ok _, g, w') =>
      (* display_game_results ends with prompt_enter_to_continue() *)
      let (r, w'') := prompt_enter_to_continue true w' in Some (r, g, w'')
  | other => other
  end.

(** The dictionaries a match goes through: the fresh one, and the one
    [process_round] leaves when the loop of [play_game] found no grand
    winner and played a round. *)
Inductive reachable : game -> Prop :=
| reach_create : reachable create_game
| reach_round (g g' : game) (user_move opponent_move : string) :
    reachable g ->
    PyStr.truthy (grand_winner g) = false ->
    process_round g user_move opponent_move = (Ok tt, g') ->
    reachable g'.

(** The message of [display_round_results] for the round just played,
    and the message of [display_game_results] for the match, each named by
    its key in the message table. *)
Definition display_round_results_key (g : game) : string :=
  let opponent := opponent_name cfg in
  let winner := round_winner g in
  if PyStr.eq_str winner "user" then "user_wins_round"
  else if PyStr.eq_str winner opponent then "opponent_wins_round"
  else "round_tied".

Definition display_game_results_key (g : game) : string :=
  if PyStr.eq_str (grand_winner g) "user" then "user_grand_winner"
  else "opponent_grand_winner".

(** The [while True] of [get_user_input]: a line that is not a valid
    input is followed by [prompt_enter_to_continue] and another try.  The
    fuel is as in [play_round_loop]. *)
Fixpoint get_user_input_loop (fuel : nat) (w : world)
  : option (res string * world) :=
  match fuel with
  | O => None
  | S fuel' =>
      match input w with
      | (Raise e, w1) => Some (Raise e, w1)
      | (Ok line, w1) =>
          let user_input := PyStr.lower line in
          if is_valid_input user_input then Some (Ok user_input, w1)
          else
            match prompt_enter_to_continue true w1 with
            | (Raise e, w2) => Some (Raise e, w2)
            | (Ok _, w2) => get_user_input_loop fuel' w2
            end
      end
  end.

Definition get_user_input (w : world) : option (res string * world) :=
  get_user_input_loop (S (length (stdin w))) w.

(** *** Descriptions and the scoreboard *)

Definition RULES : list string :=
  ["Win a round to earn one point";
   "No points are awarded if a tie occurs";
   ("First to reach " ++ PyText.str (points_to_win cfg)
    ++ " points wins the match")%string].

(** [None] is what the [match] of [generate_description] leaves for a
    category it does not list. *)
Definition generate_description (category : string)
  : option (list string) :=
  let moves :=
    map (fun '(move, details) =>
           (move ++ " (" ++ PyText.join ", " (PyText.chars (alias details))
            ++ ")")%string) tbl in
  let commands :=
    map (fun '(command, a) => (command ++ " (" ++ a ++ ")")%string)
      COMMANDS in
  let winning_moves :=
    map (fun '(move, details) =>
           (PyText.capitalize move ++ " beats "
            ++ PyText.join " and " (beats details))%string) tbl in
  let rules := winning_moves ++ RULES in
  let all_inputs := moves ++ commands in
  if (category =? "moves")%string then Some moves
  else if (category =? "winning_moves")%string then Some winning_moves
  else if (category =? "rules")%string then Some rules
  else if (category =? "all_inputs")%string then Some all_inputs
  else None.

(** The lines [display_scoreboard] prints, in order. *)
Definition display_scoreboard (g : game) : list string :=
  let width := scoreboard_width cfg in
  let header :=
    if tiebreaker_round g then " TIEBREAKER ROUND "
    else (" ROUND " ++ PyText.str (current_round g) ++ " ")%string in
  let column_width := width / 2 in
  let player := ("You: " ++ PyText.str (user_score g))%string in
  let opponent :=
    (opponent_name cfg ++ ": " ++ PyText.str (opponent_score g))%string in
  [PyText.format_center "-" width header;
   (PyText.format_left column_width player ++ "|"
    ++ PyText.format_right column_width opponent)%string;
   PyText.times "-" width;
   ""].

(** [display_introduction], as far as the console goes.  A first-time
    user gets a prompt that takes no command, the help text, and a prompt
    that does; a returning user gets the last prompt only. *)
Definition display_introduction (returning_user : bool) (w : world)
  : res unit * world :=
  if returning_user then prompt_enter_to_continue true w
  else
    match prompt_enter_to_continue false w with
    | (Raise e, w1) => (Raise e, w1)
    | (Ok _, w1) => prompt_enter_to_continue true w1
    end.

End Program.

(** ** The tournament property of a catalog

    Stated over the table alone: [a] beats [b] when [b] is listed in the
    entry of [a]. *)

Definition beats_in (tbl : catalog) (a b : string) : bool :=
  match getitem tbl a with
  | Ok details => PyStr.contains b (beats details)
  | Raise _ => false
  end.

(** How many of the moves of [among] the predicate holds for. *)
Definition count_moves (p : string -> bool) (among : list string) : nat :=
  length (filter p among).

Record tournament (tbl : catalog) : Prop := {
  tournament_five : length (keys tbl) = 5%nat;
  tournament_distinct : NoDup (keys tbl);
  tournament_one_way : forall a b,
    In a (keys tbl) -> In b (keys tbl) -> a <> b ->
    beats_in tbl a b = negb (beats_in tbl b a);
  tournament_irreflexive : forall a,
    In a (keys tbl) -> beats_in tbl a a = false;
  tournament_beats_two : forall a,
    In a (keys tbl) -> count_moves (beats_in tbl a) (keys tbl) = 2%nat;
  tournament_loses_two : forall a,
    In a (keys tbl) ->
    count_moves (fun b => beats_in tbl b a) (keys tbl) = 2%nat;
  tournament_closed : forall a details,
    getitem tbl a = Ok details ->
    length (beats details) = 2%nat /\
    NoDup (beats details) /\ incl (beats details) (keys tbl)
}.

(** A table in which rock is listed as beating itself. *)
Definition MOVES_rock_beats_rock : catalog := [
  ("rock",    {| alias := "r"; beats := ["rock"; "lizard"] |});
  ("paper",   {| alias := "p"; beats := ["rock"; "spock"] |});
  ("scissor", {| alias := "s"; beats := ["paper"; "lizard"] |});
  ("spock",   {| alias := "k"; beats := ["rock"; "scissor"] |});
  ("lizard",  {| alias := "l"; beats := ["paper"; "spock"] |})
].

(** The round resolver as the claims name it: the winner
    [determine_round_winner] records, read the way
    [display_round_results] reads it. *)
Definition resolve (cfg : settings) (tbl : catalog)
  (user_move opponent_move : string) : res RoundOutcome :=
  match determine_round_winner cfg tbl user_move opponent_move with
  | Ok winner => Ok (round_outcome cfg winner)
  | Raise e => Raise e
  end.

(** * Properties *)

(** ** Dictionaries *)

Lemma getitem_In {V : Type} (d : list (string * V)) (k : string) :
  In k (keys d) -> exists v, getitem d k = Ok v.
Proof.
  induction d as [|[k' v] d IH]; simpl; [tauto|].
  intros [->|Hin].
  - rewrite String.eqb_refl. now exists v.
  - destruct (k =? k')%string; [now exists v | auto].
Qed.

Lemma getitem_Ok_In {V : Type} (d : list (string * V)) (k : string) (v : V) :
  getitem d k = Ok v -> In k (keys d).
Proof.
  induction d as [|[k' v'] d IH]; simpl; [discriminate|].
  destruct (String.eqb_spec k k') as [->|_]; auto.
Qed.

(** ** The round winner *)

Lemma determine_round_winner_keys (cfg : settings) (tbl : catalog)
  (a b : string) :
  In a (keys tbl) -> In b (keys tbl) ->
  determine_round_winner cfg tbl a b =
    Ok (if beats_in tbl b a then Some (opponent_name cfg)
        else if beats_in tbl a b then Some "user" else None).
Proof.
  intros Ha Hb. unfold determine_round_winner, beats_in.
  destruct (getitem_In tbl a Ha) as [da ->].
  destruct (getitem_In tbl b Hb) as [db ->].
  reflexivity.
Qed.

Lemma round_outcome_user (cfg : settings) :
  round_outcome cfg (Some "user") = UserWins.
Proof. reflexivity. Qed.

Lemma round_outcome_opponent (cfg : settings) :
  round_outcome cfg (Some (opponent_name cfg)) =
    if (opponent_name cfg =? "user")%string then UserWins else OpponentWins.
Proof.
  unfold round_outcome, PyStr.eq_str.
  destruct (opponent_name cfg =? "user")%string; [reflexivity|].
  now rewrite String.eqb_refl.
Qed.

(** ** The catalog of the program *)

Ltac each_move H :=
  simpl in H;
  repeat match type of H with
         | _ \/ _ => destruct H as [H|H]
         end;
  try contradiction; subst.

Lemma MOVES_one_way (a b : string) :
  In a (keys MOVES) -> In b (keys MOVES) -> a <> b ->
  beats_in MOVES a b = negb (beats_in MOVES b a).
Proof.
  intros Ha Hb Hab. each_move Ha; each_move Hb;
    solve [reflexivity | now elim Hab].
Qed.

Lemma MOVES_irreflexive (a : string) :
  In a (keys MOVES) -> beats_in MOVES a a = false.
Proof. intros Ha. each_move Ha; reflexivity. Qed.

(** C1. For two moves of the catalog the round resolver answers Tie
    exactly when the two moves are the same move (the recorded winner is
    [None] exactly then); in particular [resolve m m] is Tie for every move
    [m].  This holds whatever the configured opponent name is. *)
Theorem tie_iff_same_move (cfg : settings) (user_move opponent_move : string) :
  In user_move (keys MOVES) -> In opponent_move (keys MOVES) ->
  exists winner,
    determine_round_winner cfg MOVES user_move opponent_move = Ok winner /\
    resolve cfg MOVES user_move opponent_move = Ok (round_outcome cfg winner) /\
    (round_outcome cfg winner = Tie <-> user_move = opponent_move) /\
    (winner = None <-> user_move = opponent_move).
Proof.
  intros Hu Ho. eexists. split; [|split].
  - apply determine_round_winner_keys; assumption.
  - unfold resolve. now rewrite determine_round_winner_keys.
  - destruct (String.eqb_spec user_move opponent_move) as [->|Hne].
    + rewrite MOVES_irreflexive by assumption. simpl. tauto.
    + rewrite (MOVES_one_way opponent_move user_move) by auto.
      destruct (beats_in MOVES user_move opponent_move); simpl.
      * rewrite round_outcome_user.
        split; split; intros H; try discriminate; contradiction.
      * rewrite round_outcome_opponent.
        destruct (opponent_name cfg =? "user")%string;
          split; split; intros H; try discriminate; contradiction.
Qed.

Lemma tie_iff_same_move_witness :
  exists winner,
    determine_round_winner SETTINGS MOVES "lizard" "lizard" = Ok winner /\
    resolve SETTINGS MOVES "lizard" "lizard" =
      Ok (round_outcome SETTINGS winner) /\
    (round_outcome SETTINGS winner = Tie <-> "lizard" = "lizard") /\
    (winner = None <-> "lizard" = "lizard").
Proof.
  apply (tie_iff_same_move SETTINGS "lizard" "lizard"); simpl; tauto.
Defined.

(** C2. When the opponent is not called "user", two distinct moves of the
    catalog are resolved in favour of exactly one of them: exactly one of
    [resolve a b] and [resolve b a] is UserWins, and [resolve a b] is
    UserWins exactly when [resolve b a] is OpponentWins. *)
Theorem resolve_antisymmetric (cfg : settings) (a b : string) :
  opponent_name cfg <> "user" ->
  In a (keys MOVES) -> In b (keys MOVES) -> a <> b ->
  exists ab ba,
    resolve cfg MOVES a b = Ok ab /\
    resolve cfg MOVES b a = Ok ba /\
    ((ab = UserWins /\ ba <> UserWins) \/
     (ab <> UserWins /\ ba = UserWins)) /\
    (ab = UserWins <-> ba = OpponentWins).
Proof.
  intros Hname Ha Hb Hab. unfold resolve.
  rewrite !determine_round_winner_keys by assumption.
  rewrite (MOVES_one_way b a) by auto.
  apply String.eqb_neq in Hname.
  destruct (beats_in MOVES a b); simpl;
    rewrite round_outcome_opponent, Hname, round_outcome_user;
    do 2 eexists; (split; [reflexivity|]); (split; [reflexivity|]).
  - split; [left; split; [reflexivity | discriminate] | tauto].
  - split; [right; split; [discriminate | reflexivity] |].
    split; discriminate.
Qed.

Lemma resolve_antisymmetric_witness :
  exists ab ba,
    resolve SETTINGS MOVES "rock" "spock" = Ok ab /\
    resolve SETTINGS MOVES "spock" "rock" = Ok ba /\
    ((ab = UserWins /\ ba <> UserWins) \/
     (ab <> UserWins /\ ba = UserWins)) /\
    (ab = UserWins <-> ba = OpponentWins).
Proof.
  apply (resolve_antisymmetric SETTINGS "rock" "spock").
  - discriminate.
  - simpl; tauto.
  - simpl; tauto.
  - discriminate.
Defined.

(** C3 (as amended). The beats-relation of [MOVES] is a tournament over
    its five moves: between two distinct moves exactly one beats the other,
    no move beats itself, every move beats exactly two moves and is beaten
    by exactly two, and every entry lists two distinct moves of the
    catalog.  The table is a literal; the program has no step that checks
    it. *)
Theorem MOVES_is_tournament : tournament MOVES.
Proof.
  constructor.
  - reflexivity.
  - repeat constructor; simpl; intuition discriminate.
  - exact MOVES_one_way.
  - exact MOVES_irreflexive.
  - intros a Ha. each_move Ha; reflexivity.
  - intros a Ha. each_move Ha; reflexivity.
  - intros a details Hget.
    assert (Ha := getitem_Ok_In _ _ _ Hget).
    each_move Ha; simpl in Hget; injection Hget as <-; simpl;
      (split; [reflexivity|]);
      (split; [repeat constructor; simpl; intuition discriminate|]);
      intros x Hx; simpl in Hx; simpl; intuition.
Qed.

(** C3, the claim as stated fails: a table in which rock beats itself is
    not a tournament, and nothing rejects it; a round of rock against rock
    is played on it and scored for the opponent. *)
Lemma no_catalog_validation :
  ~ tournament MOVES_rock_beats_rock /\
  process_round SETTINGS MOVES_rock_beats_rock create_game "rock" "rock" =
    (Ok tt,
     {| current_round := 2;
        tiebreaker_round := false;
        user_score := 0;
        opponent_score := 1;
        round_winner := Some "Monty";
        grand_winner := None |}).
Proof.
  split; [|reflexivity].
  intros [_ _ _ Hirr _ _ _].
  specialize (Hirr "rock"). simpl in Hirr.
  assert (H : true = false) by (apply Hirr; tauto).
  discriminate.
Qed.

(** ** One round on the match dictionary *)

(** What a round that resolves to [winner] leaves in the dictionary. *)
Lemma process_round_winner (cfg : settings) (tbl : catalog) (g : game)
  (user_move opponent_move : string) (winner : option string) :
  determine_round_winner cfg tbl user_move opponent_move = Ok winner ->
  exists g',
    process_round cfg tbl g user_move opponent_move = (Ok tt, g') /\
    current_round g' = current_round g + 1 /\
    user_score g' =
      user_score g + (if PyStr.eq_str winner "user" then 1 else 0) /\
    opponent_score g' =
      opponent_score g +
      (if PyStr.eq_str winner (opponent_name cfg) then 1 else 0) /\
    round_winner g' = winner /\
    grand_winner g' = determine_grand_winner cfg g' /\
    tiebreaker_round g' =
      (user_score g' =? 2) && (opponent_score g' =? 2).
Proof.
  intros Hw. unfold process_round. rewrite Hw.
  eexists. split; [reflexivity|].
  unfold increment_score, determine_grand_winner.
  destruct (PyStr.eq_str winner "user"),
           (PyStr.eq_str winner (opponent_name cfg)); simpl;
    repeat split; lia.
Qed.

Lemma process_round_Ok (cfg : settings) (tbl : catalog) (g g' : game)
  (user_move opponent_move : string) :
  process_round cfg tbl g user_move opponent_move = (Ok tt, g') ->
  exists winner,
    determine_round_winner cfg tbl user_move opponent_move = Ok winner.
Proof.
  unfold process_round.
  destruct (determine_round_winner cfg tbl user_move opponent_move)
    as [winner|e]; [|discriminate].
  intros _. now exists winner.
Qed.

(** The flag the dictionary came with plays no part in a round. *)
Lemma process_round_ignores_flag (cfg : settings) (tbl : catalog)
  (g g' : game) (flag : bool) (user_move opponent_move : string) :
  process_round cfg tbl g user_move opponent_move = (Ok tt, g') ->
  process_round cfg tbl (set_tiebreaker_round flag g) user_move opponent_move
  = (Ok tt, g').
Proof.
  unfold process_round.
  destruct (determine_round_winner cfg tbl user_move opponent_move)
    as [winner|e]; [|discriminate].
  intros <-. unfold increment_score.
  destruct (PyStr.eq_str winner "user"),
           (PyStr.eq_str winner (opponent_name cfg)); reflexivity.
Qed.

Lemma eq_str_user_opponent (cfg : settings) (winner : option string) :
  opponent_name cfg <> "user" ->
  PyStr.eq_str winner "user" = true ->
  PyStr.eq_str winner (opponent_name cfg) = false.
Proof.
  intros Hname. destruct winner as [s|]; simpl; [|discriminate].
  intros Hs. apply String.eqb_eq in Hs. subst s.
  apply String.eqb_neq. congruence.
Qed.

(** With an opponent not called "user", a round moves the scores the way
    its outcome reads. *)
Lemma process_round_scores (cfg : settings) (tbl : catalog) (g : game)
  (user_move opponent_move : string) (winner : option string) :
  opponent_name cfg <> "user" ->
  determine_round_winner cfg tbl user_move opponent_move = Ok winner ->
  exists g',
    process_round cfg tbl g user_move opponent_move = (Ok tt, g') /\
    match round_outcome cfg winner with
    | UserWins =>
        user_score g' = user_score g + 1 /\
        opponent_score g' = opponent_score g
    | OpponentWins =>
        user_score g' = user_score g /\
        opponent_score g' = opponent_score g + 1
    | Tie =>
        user_score g' = user_score g /\
        opponent_score g' = opponent_score g
    end.
Proof.
  intros Hname Hw.
  destruct (process_round_winner cfg tbl g _ _ _ Hw)
    as [g' [Hrun [_ [Hu [Ho _]]]]].
  exists g'. split; [assumption|].
  unfold round_outcome.
  destruct (PyStr.eq_str winner "user") eqn:Eu.
  - rewrite (eq_str_user_opponent cfg winner Hname Eu) in Ho. lia.
  - destruct (PyStr.eq_str winner (opponent_name cfg)); lia.
Qed.

(** ** The end of the match *)

(** C4 (as amended). Once [grand_winner] holds a name the match is over
    for [play_game]: its loop stops at the guard, plays no further round,
    reads no input, draws no move and leaves the dictionary as it is.
    [process_round] itself has no such check: called with two moves of the
    catalog on that dictionary it applies the round like any other. *)
Theorem grand_winner_stops_play_game (cfg : settings) (tbl : catalog)
  (g : game) :
  PyStr.truthy (grand_winner g) = true ->
  (forall fuel w, play_game_loop cfg tbl fuel g w = Some (Ok tt, g, w)) /\
  (forall user_move opponent_move,
     In user_move (keys tbl) -> In opponent_move (keys tbl) ->
     exists g',
       process_round cfg tbl g user_move opponent_move = (Ok tt, g') /\
       current_round g' = current_round g + 1).
Proof.
  intros Hset. split.
  - intros fuel w. destruct fuel; simpl; now rewrite Hset.
  - intros user_move opponent_move Hu Ho.
    pose proof (determine_round_winner_keys cfg tbl _ _ Hu Ho) as Hw.
    destruct (process_round_winner cfg tbl g _ _ _ Hw)
      as [g' [Hrun [Hround _]]].
    eauto.
Qed.

Lemma grand_winner_stops_play_game_witness :
  let g := {| current_round := 4;
              tiebreaker_round := false;
              user_score := 3;
              opponent_score := 0;
              round_winner := Some "user";
              grand_winner := Some "user" |} in
  (forall fuel w, play_game_loop SETTINGS MOVES fuel g w = Some (Ok tt, g, w))
  /\
  (forall user_move opponent_move,
     In user_move (keys MOVES) -> In opponent_move (keys MOVES) ->
     exists g',
       process_round SETTINGS MOVES g user_move opponent_move = (Ok tt, g') /\
       current_round g' = current_round g + 1).
Proof.
  intros g. apply (grand_winner_stops_play_game SETTINGS MOVES g).
  reflexivity.
Defined.

(** C4, the claim as stated fails: after three rounds won by the user the
    grand winner is set, and a fourth call of [process_round] is not
    rejected; it advances the round counter and the score. *)
Lemma process_round_accepts_terminal_state :
  let won := [("rock", "scissor"); ("rock", "scissor"); ("rock", "scissor")] in
  let g := snd (process_rounds SETTINGS MOVES create_game won) in
  grand_winner g = Some "user" /\
  process_round SETTINGS MOVES g "rock" "scissor" =
    (Ok tt,
     {| current_round := 5;
        tiebreaker_round := false;
        user_score := 4;
        opponent_score := 0;
        round_winner := Some "user";
        grand_winner := Some "user" |}).
Proof. split; reflexivity. Qed.

(** ** The tiebreaker flag *)

(** C5. A round played with two moves of the catalog returns, and in the
    dictionary it leaves the flag [tiebreaker_round] is true exactly when
    both scores are 2.  The flag is computed from the scores alone: the
    flag the dictionary came with does not matter, and a tied round played
    at 2-2 leaves it true. *)
Theorem tiebreaker_round_recomputed (cfg : settings) (tbl : catalog)
  (g : game) (user_move opponent_move : string) :
  In user_move (keys tbl) -> In opponent_move (keys tbl) ->
  exists g',
    process_round cfg tbl g user_move opponent_move = (Ok tt, g') /\
    (tiebreaker_round g' = true <->
     user_score g' = 2 /\ opponent_score g' = 2) /\
    (forall flag,
       process_round cfg tbl (set_tiebreaker_round flag g)
         user_move opponent_move = (Ok tt, g')) /\
    (user_score g = 2 -> opponent_score g = 2 ->
     resolve cfg tbl user_move opponent_move = Ok Tie ->
     tiebreaker_round g' = true).
Proof.
  intros Hu Ho.
  pose proof (determine_round_winner_keys cfg tbl _ _ Hu Ho) as Hw.
  destruct (process_round_winner cfg tbl g _ _ _ Hw)
    as [g' [Hrun [_ [Hus [Hos [_ [_ Hflag]]]]]]].
  exists g'. split; [assumption|]. split; [|split].
  - rewrite Hflag, andb_true_iff, !Z.eqb_eq. tauto.
  - intros flag. now apply process_round_ignores_flag.
  - intros Hu2 Ho2. unfold resolve. rewrite Hw. unfold round_outcome.
    destruct (PyStr.eq_str _ "user"); [discriminate|].
    destruct (PyStr.eq_str _ (opponent_name cfg)); [discriminate|].
    intros _. rewrite Hflag, Hus, Hos, Hu2, Ho2. reflexivity.
Qed.

Lemma tiebreaker_round_recomputed_witness :
  exists g',
    process_round SETTINGS MOVES create_game "paper" "rock" = (Ok tt, g') /\
    (tiebreaker_round g' = true <->
     user_score g' = 2 /\ opponent_score g' = 2) /\
    (forall flag,
       process_round SETTINGS MOVES (set_tiebreaker_round flag create_game)
         "paper" "rock" = (Ok tt, g')) /\
    (user_score create_game = 2 -> opponent_score create_game = 2 ->
     resolve SETTINGS MOVES "paper" "rock" = Ok Tie ->
     tiebreaker_round g' = true).
Proof.
  apply (tiebreaker_round_recomputed SETTINGS MOVES create_game
           "paper" "rock"); simpl; tauto.
Defined.

(** ** The grand winner *)

Lemma truthy_determine_grand_winner (cfg : settings) (g : game) :
  opponent_name cfg <> "" ->
  PyStr.truthy (determine_grand_winner cfg g) = true <->
  user_score g >= 3 \/ opponent_score g >= 3.
Proof.
  intros Hname. apply String.eqb_neq in Hname.
  unfold determine_grand_winner.
  destruct (Z.gtb_spec (user_score g) 2);
    [simpl; split; [lia | reflexivity]|].
  destruct (Z.gtb_spec (opponent_score g) 2); simpl.
  - rewrite Hname. simpl. split; [lia | reflexivity].
  - split; [discriminate | lia].
Qed.

(** Along a match the recorded grand winner is the one the scores give,
    and unless the opponent is called "user" the two scores are never
    both above 2. *)
Lemma reachable_invariant (cfg : settings) (tbl : catalog) (g : game) :
  opponent_name cfg <> "" ->
  reachable cfg tbl g ->
  grand_winner g = determine_grand_winner cfg g /\
  (opponent_name cfg <> "user" ->
   user_score g <= 2 \/ opponent_score g <= 2).
Proof.
  intros Hname Hreach.
  induction Hreach as [|g g' user_move opponent_move _ IH Hopen Hrun].
  - split; [reflexivity | simpl; lia].
  - destruct IH as [Hgw _].
    assert (Hlow : user_score g <= 2 /\ opponent_score g <= 2).
    { rewrite Hgw in Hopen.
      pose proof (truthy_determine_grand_winner cfg g Hname) as Hiff.
      destruct (Z.le_gt_cases (user_score g) 2);
        destruct (Z.le_gt_cases (opponent_score g) 2); try lia;
        (assert (Ht : PyStr.truthy (determine_grand_winner cfg g) = true)
           by (apply Hiff; lia));
        congruence. }
    destruct (process_round_Ok _ _ _ _ _ _ Hrun) as [winner Hw].
    destruct (process_round_winner cfg tbl g _ _ _ Hw)
      as [g'' [Hrun' [_ [Hus [Hos [_ [Hgw' _]]]]]]].
    rewrite Hrun in Hrun'. injection Hrun' as <-.
    split; [assumption|].
    intros Huser.
    destruct (PyStr.eq_str winner "user") eqn:Eu.
    + rewrite (eq_str_user_opponent cfg winner Huser Eu) in Hos. lia.
    + lia.
Qed.

(** C6. Along a match (opponent name not empty) the dictionary left by
    a round has [grand_winner] "user" when the user's score is 3 or more,
    the opponent's name when the opponent's score is 3 or more, and [None]
    otherwise.  A grand winner is recorded exactly when a score has reached
    3, and the loop of [play_game] then stops.  The tiebreaker flag takes
    no part: a round gives the same dictionary whatever the flag was. *)
Theorem grand_winner_from_scores (cfg : settings) (tbl : catalog) (g : game) :
  opponent_name cfg <> "" ->
  reachable cfg tbl g ->
  (user_score g >= 3 -> grand_winner g = Some "user") /\
  (opponent_score g >= 3 -> grand_winner g = Some (opponent_name cfg)) /\
  (user_score g < 3 -> opponent_score g < 3 -> grand_winner g = None) /\
  (PyStr.truthy (grand_winner g) = true <->
   user_score g >= 3 \/ opponent_score g >= 3) /\
  (user_score g >= 3 \/ opponent_score g >= 3 ->
   forall fuel w, play_game_loop cfg tbl fuel g w = Some (Ok tt, g, w)) /\
  (forall flag user_move opponent_move g',
     process_round cfg tbl g user_move opponent_move = (Ok tt, g') ->
     process_round cfg tbl (set_tiebreaker_round flag g)
       user_move opponent_move = (Ok tt, g')).
Proof.
  intros Hname Hreach.
  destruct (reachable_invariant cfg tbl g Hname Hreach) as [Hgw Hboth].
  pose proof (truthy_determine_grand_winner cfg g Hname) as Hends.
  rewrite <- Hgw in Hends.
  repeat split.
  - intros Hu. rewrite Hgw. unfold determine_grand_winner.
    destruct (Z.gtb_spec (user_score g) 2); [reflexivity | lia].
  - intros Ho. rewrite Hgw. unfold determine_grand_winner.
    destruct (Z.gtb_spec (user_score g) 2) as [Hu|Hu].
    + destruct (String.eqb_spec (opponent_name cfg) "user") as [->|Hne];
        [reflexivity|].
      specialize (Hboth Hne). lia.
    + destruct (Z.gtb_spec (opponent_score g) 2); [reflexivity | lia].
  - intros Hu Ho. rewrite Hgw. unfold determine_grand_winner.
    destruct (Z.gtb_spec (user_score g) 2); [lia|].
    destruct (Z.gtb_spec (opponent_score g) 2); [lia | reflexivity].
  - apply Hends.
  - apply Hends.
  - intros Hthree fuel w. apply Hends in Hthree.
    destruct fuel; simpl; now rewrite Hthree.
  - intros flag user_move opponent_move g'.
    apply process_round_ignores_flag.
Qed.

Lemma grand_winner_from_scores_witness :
  let g := snd (process_rounds SETTINGS MOVES create_game
                  [("rock", "scissor"); ("rock", "paper");
                   ("spock", "rock"); ("lizard", "lizard");
                   ("paper", "spock")]) in
  user_score g = 3 /\ opponent_score g = 1 /\
  (user_score g >= 3 -> grand_winner g = Some "user") /\
  (opponent_score g >= 3 -> grand_winner g = Some (opponent_name SETTINGS)) /\
  (user_score g < 3 -> opponent_score g < 3 -> grand_winner g = None) /\
  (PyStr.truthy (grand_winner g) = true <->
   user_score g >= 3 \/ opponent_score g >= 3) /\
  (user_score g >= 3 \/ opponent_score g >= 3 ->
   forall fuel w, play_game_loop SETTINGS MOVES fuel g w = Some (Ok tt, g, w))
  /\
  (forall flag user_move opponent_move g',
     process_round SETTINGS MOVES g user_move opponent_move = (Ok tt, g') ->
     process_round SETTINGS MOVES (set_tiebreaker_round flag g)
       user_move opponent_move = (Ok tt, g')).
Proof.
  intros g. split; [reflexivity|]. split; [reflexivity|].
  apply (grand_winner_from_scores SETTINGS MOVES g).
  - discriminate.
  - unfold g.
    eapply reach_round with (user_move := "paper") (opponent_move := "spock");
      [| |reflexivity]; [|reflexivity].
    eapply reach_round with (user_move := "lizard") (opponent_move := "lizard");
      [| |reflexivity]; [|reflexivity].
    eapply reach_round with (user_move := "spock") (opponent_move := "rock");
      [| |reflexivity]; [|reflexivity].
    eapply reach_round with (user_move := "rock") (opponent_move := "paper");
      [| |reflexivity]; [|reflexivity].
    eapply reach_round with (user_move := "rock") (opponent_move := "scissor");
      [| |reflexivity]; [|reflexivity].
    apply reach_create.
Defined.

(** ** Scores along a run of rounds *)

Lemma resolve_keys (cfg : settings) (tbl : catalog) (a b : string) :
  In a (keys tbl) -> In b (keys tbl) ->
  exists winner,
    determine_round_winner cfg tbl a b = Ok winner /\
    resolve cfg tbl a b = Ok (round_outcome cfg winner).
Proof.
  intros Ha Hb. eexists. split.
  - apply determine_round_winner_keys; assumption.
  - unfold resolve. now rewrite determine_round_winner_keys.
Qed.

(** From any dictionary, a run of rounds adds one point in all for each
    round that did not tie. *)
Lemma process_rounds_scores (cfg : settings) (tbl : catalog)
  (rounds : list (string * string)) :
  opponent_name cfg <> "user" ->
  Forall (fun r => In (fst r) (keys tbl) /\ In (snd r) (keys tbl)) rounds ->
  forall g, exists g',
    process_rounds cfg tbl g rounds = (Ok tt, g') /\
    user_score g' + opponent_score g' <=
      user_score g + opponent_score g + Z.of_nat (length rounds) /\
    (user_score g' + opponent_score g' =
       user_score g + opponent_score g + Z.of_nat (length rounds) <->
     Forall (fun r => resolve cfg tbl (fst r) (snd r) <> Ok Tie) rounds).
Proof.
  intros Hname Hkeys.
  induction Hkeys as [|[a b] rounds [Ha Hb] _ IH]; intros g.
  - exists g. simpl. repeat split; try lia. constructor.
  - simpl in Ha, Hb.
    destruct (resolve_keys cfg tbl a b Ha Hb) as [winner [Hw Hres]].
    destruct (process_round_scores cfg tbl g a b winner Hname Hw)
      as [g1 [Hrun Hscore]].
    destruct (IH g1) as [g' [Hrest [Hle Hiff]]].
    exists g'. cbn [process_rounds]. rewrite Hrun.
    split; [assumption|].
    rewrite length_cons, Nat2Z.inj_succ.
    rewrite Forall_cons_iff. cbn [fst snd]. rewrite Hres.
    destruct (round_outcome cfg winner); destruct Hscore as [Hu Ho].
    + split; [lia|]. rewrite <- Hiff.
      split; [intros H; split; [discriminate | lia] | intros [_ H]; lia].
    + split; [lia|]. rewrite <- Hiff.
      split; [intros H; split; [discriminate | lia] | intros [_ H]; lia].
    + split; [lia|].
      split; [intros H; lia | intros [H _]; now elim H].
Qed.

(** C7. With an opponent not called "user", a run of [N] rounds played
    from a fresh dictionary with moves of the catalog returns with
    [user_score + opponent_score <= N], and with equality exactly when no
    round of the run tied.  In each round, a UserWins outcome adds 1 to
    [user_score] alone, an OpponentWins outcome adds 1 to [opponent_score]
    alone, and a Tie changes neither. *)
Theorem scores_count_decided_rounds (cfg : settings) (tbl : catalog)
  (rounds : list (string * string)) :
  opponent_name cfg <> "user" ->
  Forall (fun r => In (fst r) (keys tbl) /\ In (snd r) (keys tbl)) rounds ->
  (exists g',
     process_rounds cfg tbl create_game rounds = (Ok tt, g') /\
     user_score g' + opponent_score g' <= Z.of_nat (length rounds) /\
     (user_score g' + opponent_score g' = Z.of_nat (length rounds) <->
      Forall (fun r => resolve cfg tbl (fst r) (snd r) <> Ok Tie) rounds)) /\
  (forall g user_move opponent_move,
     In user_move (keys tbl) -> In opponent_move (keys tbl) ->
     exists outcome g',
       resolve cfg tbl user_move opponent_move = Ok outcome /\
       process_round cfg tbl g user_move opponent_move = (Ok tt, g') /\
       match outcome with
       | UserWins =>
           user_score g' = user_score g + 1 /\
           opponent_score g' = opponent_score g
       | OpponentWins =>
           user_score g' = user_score g /\
           opponent_score g' = opponent_score g + 1
       | Tie =>
           user_score g' = user_score g /\
           opponent_score g' = opponent_score g
       end).
Proof.
  intros Hname Hkeys. split.
  - destruct (process_rounds_scores cfg tbl rounds Hname Hkeys create_game)
      as [g' [Hrun [Hle Hiff]]].
    exists g'. simpl in Hle, Hiff. auto.
  - intros g user_move opponent_move Hu Ho.
    destruct (resolve_keys cfg tbl _ _ Hu Ho) as [winner [Hw Hres]].
    destruct (process_round_scores cfg tbl g _ _ winner Hname Hw)
      as [g' [Hrun Hscore]].
    eauto.
Qed.

Lemma scores_count_decided_rounds_witness :
  let rounds := [("rock", "scissor"); ("lizard", "lizard");
                 ("paper", "scissor")] in
  (exists g',
     process_rounds SETTINGS MOVES create_game rounds = (Ok tt, g') /\
     user_score g' + opponent_score g' <= Z.of_nat (length rounds) /\
     (user_score g' + opponent_score g' = Z.of_nat (length rounds) <->
      Forall (fun r => resolve SETTINGS MOVES (fst r) (snd r) <> Ok Tie)
        rounds)) /\
  (forall g user_move opponent_move,
     In user_move (keys MOVES) -> In opponent_move (keys MOVES) ->
     exists outcome g',
       resolve SETTINGS MOVES user_move opponent_move = Ok outcome /\
       process_round SETTINGS MOVES g user_move opponent_move = (Ok tt, g') /\
       match outcome with
       | UserWins =>
           user_score g' = user_score g + 1 /\
           opponent_score g' = opponent_score g
       | OpponentWins =>
           user_score g' = user_score g /\
           opponent_score g' = opponent_score g + 1
       | Tie =>
           user_score g' = user_score g /\
           opponent_score g' = opponent_score g
       end).
Proof.
  intros rounds.
  apply (scores_count_decided_rounds SETTINGS MOVES rounds).
  - discriminate.
  - unfold rounds. repeat constructor; simpl; tauto.
Defined.

(** ** Concrete runs *)

Lemma resolve_UserWins (cfg : settings) (tbl : catalog) (a b : string) :
  resolve cfg tbl a b = Ok UserWins ->
  determine_round_winner cfg tbl a b = Ok (Some "user").
Proof.
  unfold resolve, round_outcome.
  destruct (determine_round_winner cfg tbl a b) as [[s|]|e];
    simpl; try discriminate.
  - destruct (String.eqb_spec s "user") as [->|_]; [reflexivity|].
    destruct (s =? opponent_name cfg)%string; discriminate.
Qed.

Lemma resolve_OpponentWins (cfg : settings) (tbl : catalog) (a b : string) :
  resolve cfg tbl a b = Ok OpponentWins ->
  determine_round_winner cfg tbl a b = Ok (Some (opponent_name cfg)).
Proof.
  unfold resolve, round_outcome.
  destruct (determine_round_winner cfg tbl a b) as [[s|]|e];
    simpl; try discriminate.
  - destruct (s =? "user")%string; [discriminate|].
    destruct (String.eqb_spec s (opponent_name cfg)) as [->|_];
      [reflexivity | discriminate].
Qed.

(** C9. The listed cases: rock against scissor is a user win, rock
    against spock an opponent win, lizard against lizard a tie; "r" stands
    for rock and "banana" for no move; four rounds resolved as user,
    user, opponent, opponent from a fresh dictionary leave 2-2 with the
    tiebreaker flag set and no grand winner, and a fifth round resolved for
    the user leaves 3-2 with the user as grand winner. *)
Theorem concrete_cases (r1 r2 r3 r4 r5 : string * string) :
  resolve SETTINGS MOVES (fst r1) (snd r1) = Ok UserWins ->
  resolve SETTINGS MOVES (fst r2) (snd r2) = Ok UserWins ->
  resolve SETTINGS MOVES (fst r3) (snd r3) = Ok OpponentWins ->
  resolve SETTINGS MOVES (fst r4) (snd r4) = Ok OpponentWins ->
  resolve SETTINGS MOVES (fst r5) (snd r5) = Ok UserWins ->
  resolve SETTINGS MOVES "rock" "scissor" = Ok UserWins /\
  resolve SETTINGS MOVES "rock" "spock" = Ok OpponentWins /\
  resolve SETTINGS MOVES "lizard" "lizard" = Ok Tie /\
  classify MOVES "r" = Some "rock" /\
  classify MOVES "banana" = None /\
  exists g4 g5,
    process_rounds SETTINGS MOVES create_game [r1; r2; r3; r4] = (Ok tt, g4) /\
    user_score g4 = 2 /\ opponent_score g4 = 2 /\
    tiebreaker_round g4 = true /\ grand_winner g4 = None /\
    process_rounds SETTINGS MOVES create_game [r1; r2; r3; r4; r5]
      = (Ok tt, g5) /\
    process_round SETTINGS MOVES g4 (fst r5) (snd r5) = (Ok tt, g5) /\
    user_score g5 = 3 /\ opponent_score g5 = 2 /\
    grand_winner g5 = Some "user".
Proof.
  destruct r1 as [a1 b1], r2 as [a2 b2], r3 as [a3 b3], r4 as [a4 b4],
           r5 as [a5 b5].
  cbn [fst snd]. intros H1 H2 H3 H4 H5.
  apply resolve_UserWins in H1, H2, H5.
  apply resolve_OpponentWins in H3, H4.
  do 5 (split; [reflexivity|]).
  cbn [process_rounds]. unfold process_round.
  rewrite H1; cbn -[determine_round_winner].
  rewrite H2; cbn -[determine_round_winner].
  rewrite H3; cbn -[determine_round_winner].
  rewrite H4; cbn -[determine_round_winner].
  rewrite H5; cbn -[determine_round_winner].
  do 2 eexists. repeat split.
Qed.

Lemma concrete_cases_witness :
  resolve SETTINGS MOVES "rock" "scissor" = Ok UserWins /\
  resolve SETTINGS MOVES "rock" "spock" = Ok OpponentWins /\
  resolve SETTINGS MOVES "lizard" "lizard" = Ok Tie /\
  classify MOVES "r" = Some "rock" /\
  classify MOVES "banana" = None /\
  exists g4 g5,
    process_rounds SETTINGS MOVES create_game
      [("rock", "scissor"); ("paper", "spock");
       ("lizard", "scissor"); ("spock", "paper")] = (Ok tt, g4) /\
    user_score g4 = 2 /\ opponent_score g4 = 2 /\
    tiebreaker_round g4 = true /\ grand_winner g4 = None /\
    process_rounds SETTINGS MOVES create_game
      [("rock", "scissor"); ("paper", "spock");
       ("lizard", "scissor"); ("spock", "paper"); ("scissor", "lizard")]
      = (Ok tt, g5) /\
    process_round SETTINGS MOVES g4 "scissor" "lizard" = (Ok tt, g5) /\
    user_score g5 = 3 /\ opponent_score g5 = 2 /\
    grand_winner g5 = Some "user".
Proof.
  apply (concrete_cases ("rock", "scissor") ("paper", "spock")
           ("lizard", "scissor") ("spock", "paper") ("scissor", "lizard"));
    reflexivity.
Defined.

(** ** An opponent called "user" *)

(** C10. The recorded winner is the string "user" or the opponent's
    configured name, and [increment_score] compares it with both.  When the
    opponent is called "user", a round the user wins adds 1 to both
    scores; with any other opponent name a round changes at most one
    score, by 1. *)
Theorem scores_with_opponent_called_user (cfg : settings) (tbl : catalog)
  (g g' : game) (user_move opponent_move : string) :
  process_round cfg tbl g user_move opponent_move = (Ok tt, g') ->
  (opponent_name cfg = "user" ->
   resolve cfg tbl user_move opponent_move = Ok UserWins ->
   user_score g' = user_score g + 1 /\
   opponent_score g' = opponent_score g + 1) /\
  (opponent_name cfg <> "user" ->
   (user_score g' = user_score g /\ opponent_score g' = opponent_score g) \/
   (user_score g' = user_score g + 1 /\
    opponent_score g' = opponent_score g) \/
   (user_score g' = user_score g /\
    opponent_score g' = opponent_score g + 1)).
Proof.
  intros Hrun.
  destruct (process_round_Ok _ _ _ _ _ _ Hrun) as [winner Hw].
  destruct (process_round_winner cfg tbl g _ _ _ Hw)
    as [g'' [Hrun' [_ [Hus [Hos _]]]]].
  rewrite Hrun in Hrun'. injection Hrun' as <-.
  split.
  - intros Hname Hwin. apply resolve_UserWins in Hwin.
    rewrite Hw in Hwin. injection Hwin as ->.
    rewrite Hname in Hos. simpl in Hus, Hos. lia.
  - intros Hname.
    destruct (PyStr.eq_str winner "user") eqn:Eu.
    + rewrite (eq_str_user_opponent cfg winner Hname Eu) in Hos. lia.
    + destruct (PyStr.eq_str winner (opponent_name cfg)); lia.
Qed.

Lemma scores_with_opponent_called_user_witness :
  let cfg := {| opponent_name := "user";
                scoreboard_width := 23;
                points_to_win := 3 |} in
  let g' := {| current_round := 2;
               tiebreaker_round := false;
               user_score := 1;
               opponent_score := 1;
               round_winner := Some "user";
               grand_winner := None |} in
  process_round cfg MOVES create_game "rock" "scissor" = (Ok tt, g') /\
  resolve cfg MOVES "rock" "scissor" = Ok UserWins /\
  (opponent_name cfg = "user" ->
   resolve cfg MOVES "rock" "scissor" = Ok UserWins ->
   user_score g' = user_score create_game + 1 /\
   opponent_score g' = opponent_score create_game + 1) /\
  (opponent_name cfg <> "user" ->
   (user_score g' = user_score create_game /\
    opponent_score g' = opponent_score create_game) \/
   (user_score g' = user_score create_game + 1 /\
    opponent_score g' = opponent_score create_game) \/
   (user_score g' = user_score create_game /\
    opponent_score g' = opponent_score create_game + 1)).
Proof.
  intros cfg g'. split; [reflexivity|]. split; [reflexivity|].
  apply (scores_with_opponent_called_user cfg MOVES create_game g'
           "rock" "scissor").
  reflexivity.
Defined.

(** ** Classifying a typed line *)

Lemma lower_char_idempotent (c : ascii) :
  PyStr.lower_char (PyStr.lower_char c) = PyStr.lower_char c.
Proof. destruct c as [[] [] [] [] [] [] [] []]; reflexivity. Qed.

Lemma lower_char_upper_char (c : ascii) :
  PyStr.lower_char (PyStr.upper_char c) = PyStr.lower_char c.
Proof. destruct c as [[] [] [] [] [] [] [] []]; reflexivity. Qed.

Lemma is_space_lower_char (c : ascii) :
  PyStr.is_space (PyStr.lower_char c) = PyStr.is_space c.
Proof. destruct c as [[] [] [] [] [] [] [] []]; reflexivity. Qed.

Lemma lower_char_226 (a : ascii) :
  PyStr.lower_char a = "226"%char -> a = "226"%char.
Proof.
  destruct a as [[] [] [] [] [] [] [] []]; vm_compute;
    intros H; solve [reflexivity | discriminate H].
Qed.

Lemma lower_char_132 (a : ascii) :
  PyStr.lower_char a = "132"%char -> a = "132"%char.
Proof.
  destruct a as [[] [] [] [] [] [] [] []]; vm_compute;
    intros H; solve [reflexivity | discriminate H].
Qed.

Lemma lower_char_170 (a : ascii) :
  PyStr.lower_char a = "170"%char -> a = "170"%char.
Proof.
  destruct a as [[] [] [] [] [] [] [] []]; vm_compute;
    intros H; solve [reflexivity | discriminate H].
Qed.

Lemma is_kelvin_true (c1 c2 c3 : ascii) :
  PyStr.is_kelvin c1 c2 c3 = true ->
  c1 = "226"%char /\ c2 = "132"%char /\ c3 = "170"%char.
Proof.
  unfold PyStr.is_kelvin. rewrite !andb_true_iff, !N.eqb_eq.
  intros [[H1 H2] H3].
  rewrite <- (ascii_N_embedding c1), <- (ascii_N_embedding c2),
    <- (ascii_N_embedding c3), H1, H2, H3.
  repeat split.
Qed.

Lemma after_kelvin_Some (s r : string) :
  PyStr.after_kelvin s = Some r -> s = (PyStr.kelvin_sign ++ r)%string.
Proof.
  destruct s as [|c1 [|c2 [|c3 s]]]; try discriminate. simpl.
  destruct (PyStr.is_kelvin c1 c2 c3) eqn:E; [|discriminate].
  apply is_kelvin_true in E. destruct E as [-> [-> ->]].
  now intros [= ->].
Qed.

Lemma after_kelvin_other (c : ascii) (s : string) :
  c <> "226"%char -> PyStr.after_kelvin (String c s) = None.
Proof.
  intros Hc. destruct s as [|c2 [|c3 s]]; try reflexivity. simpl.
  destruct (PyStr.is_kelvin c c2 c3) eqn:E; [|reflexivity].
  apply is_kelvin_true in E. tauto.
Qed.

(** The two equations of [lower]. *)
Lemma lower_kelvin (rest : string) :
  PyStr.lower (PyStr.kelvin_sign ++ rest) = String "k" (PyStr.lower rest).
Proof. reflexivity. Qed.

Lemma lower_other (c : ascii) (rest : string) :
  PyStr.after_kelvin (String c rest) = None ->
  PyStr.lower (String c rest) =
    String (PyStr.lower_char c) (PyStr.lower rest).
Proof.
  destruct rest as [|c2 [|c3 rest]]; try reflexivity.
  cbn [PyStr.after_kelvin PyStr.lower].
  destruct (PyStr.is_kelvin c c2 c3); [discriminate | reflexivity].
Qed.

(** Induction along the way [lower] reads a string. *)
Lemma lower_ind (P : string -> Prop) :
  P EmptyString ->
  (forall rest, P rest -> P (PyStr.kelvin_sign ++ rest)%string) ->
  (forall c rest,
     PyStr.after_kelvin (String c rest) = None -> P rest ->
     P (String c rest)) ->
  forall s, P s.
Proof.
  intros Hnil Hkelvin Hother s.
  assert (Hlen : forall n s, (String.length s <= n)%nat -> P s).
  { clear s. induction n as [|n IH]; intros s Hs.
    - destruct s; [exact Hnil | simpl in Hs; lia].
    - destruct s as [|c rest]; [exact Hnil|].
      destruct (PyStr.after_kelvin (String c rest)) as [r|] eqn:E.
      + rewrite (after_kelvin_Some _ _ E) in Hs |- *.
        apply Hkelvin, IH. simpl in Hs. lia.
      + apply Hother; [exact E|]. apply IH. simpl in Hs. lia. }
  apply (Hlen (String.length s)). lia.
Qed.

(** A byte of the Kelvin sign at the head of a lowered string was at the
    head of the string. *)
Lemma lower_head_132 (s t : string) :
  PyStr.lower s = String "132" t ->
  exists s', s = String "132" s' /\ t = PyStr.lower s'.
Proof.
  destruct s as [|c rest]; [discriminate|].
  destruct (PyStr.after_kelvin (String c rest)) as [r|] eqn:E.
  - rewrite (after_kelvin_Some _ _ E), lower_kelvin. discriminate.
  - rewrite (lower_other _ _ E). intros [= Hc <-].
    apply lower_char_132 in Hc. subst c. now exists rest.
Qed.

Lemma lower_head_170 (s t : string) :
  PyStr.lower s = String "170" t ->
  exists s', s = String "170" s' /\ t = PyStr.lower s'.
Proof.
  destruct s as [|c rest]; [discriminate|].
  destruct (PyStr.after_kelvin (String c rest)) as [r|] eqn:E.
  - rewrite (after_kelvin_Some _ _ E), lower_kelvin. discriminate.
  - rewrite (lower_other _ _ E). intros [= Hc <-].
    apply lower_char_170 in Hc. subst c. now exists rest.
Qed.

(** Lowering makes no Kelvin sign. *)
Lemma after_kelvin_lower (c : ascii) (rest : string) :
  PyStr.after_kelvin (String c rest) = None ->
  PyStr.after_kelvin (String (PyStr.lower_char c) (PyStr.lower rest)) = None.
Proof.
  intros Hnone.
  destruct (PyStr.after_kelvin
              (String (PyStr.lower_char c) (PyStr.lower rest)))
    as [r|] eqn:E; [|reflexivity].
  apply after_kelvin_Some in E. injection E as Hc Hrest.
  apply lower_char_226 in Hc. subst c.
  apply lower_head_132 in Hrest. destruct Hrest as [s1 [-> Hs1]].
  symmetry in Hs1. apply lower_head_170 in Hs1.
  destruct Hs1 as [s2 [-> _]].
  discriminate Hnone.
Qed.

Lemma lower_idempotent (s : string) :
  PyStr.lower (PyStr.lower s) = PyStr.lower s.
Proof.
  induction s as [|rest IH|c rest Hnone IH] using lower_ind.
  - reflexivity.
  - rewrite lower_kelvin.
    rewrite lower_other by (apply after_kelvin_other; discriminate).
    now rewrite IH.
  - rewrite (lower_other _ _ Hnone).
    rewrite (lower_other _ _ (after_kelvin_lower _ _ Hnone)).
    now rewrite lower_char_idempotent, IH.
Qed.

Lemma has_space_lower (s : string) :
  PyStr.has_space (PyStr.lower s) = PyStr.has_space s.
Proof.
  induction s as [|rest IH|c rest Hnone IH] using lower_ind.
  - reflexivity.
  - rewrite lower_kelvin. cbn. exact IH.
  - rewrite (lower_other _ _ Hnone). cbn [PyStr.has_space].
    now rewrite is_space_lower_char, IH.
Qed.

Lemma same_case_refl (s : string) : PyStr.same_case s s.
Proof. induction s as [|c s IH]; simpl; auto. Qed.

Lemma same_case_after_kelvin (s t r : string) :
  PyStr.same_case s t ->
  PyStr.after_kelvin t = Some r ->
  exists r', s = (PyStr.kelvin_sign ++ r')%string /\ PyStr.same_case r' r.
Proof.
  intros Hsame Ht. apply after_kelvin_Some in Ht. subst t.
  destruct s as [|c1 [|c2 [|c3 s]]]; simpl in Hsame; try tauto.
  destruct Hsame as [H1 [H2 [H3 Hrest]]].
  apply lower_char_226 in H1. apply lower_char_132 in H2.
  apply lower_char_170 in H3. subst. now exists s.
Qed.

Lemma same_case_sym (s t : string) :
  PyStr.same_case s t -> PyStr.same_case t s.
Proof.
  revert t. induction s as [|a s IH]; intros [|b t]; simpl; try tauto.
  intros [Hab Hst]. split; [now symmetry | now apply IH].
Qed.

(** Strings that differ in letter case only have the same lower-case
    form. *)
Lemma same_case_lower (s t : string) :
  PyStr.same_case s t -> PyStr.lower s = PyStr.lower t.
Proof.
  revert t. induction s as [|rest IH|c rest Hnone IH] using lower_ind;
    intros t Hsame.
  - destruct t; [reflexivity | contradiction].
  - apply same_case_sym in Hsame.
    destruct (same_case_after_kelvin t _ rest Hsame eq_refl)
      as [r' [-> Hrest]].
    rewrite !lower_kelvin. f_equal. apply IH. now apply same_case_sym.
  - destruct t as [|b t]; [contradiction|].
    destruct Hsame as [Hcb Hrest].
    assert (Ht : PyStr.after_kelvin (String b t) = None).
    { destruct (PyStr.after_kelvin (String b t)) as [r|] eqn:E;
        [|reflexivity].
      destruct (same_case_after_kelvin (String c rest) (String b t) r)
        as [r' [Heq _]]; [simpl; tauto | exact E |].
      rewrite Heq in Hnone. discriminate Hnone. }
    rewrite (lower_other _ _ Hnone), (lower_other _ _ Ht).
    now rewrite Hcb, (IH t Hrest).
Qed.

Lemma recase_same_case (mask : list bool) (s : string) :
  PyStr.same_case (PyStr.recase mask s) s.
Proof.
  revert mask. induction s as [|c s IH]; intros mask; [exact I|].
  destruct mask as [|b mask]; [apply same_case_refl|].
  cbn [PyStr.recase PyStr.same_case]. split; [|apply IH].
  destruct b; [apply lower_char_upper_char | reflexivity].
Qed.

Lemma lower_recase (mask : list bool) (s : string) :
  PyStr.lower (PyStr.recase mask s) = PyStr.lower s.
Proof. apply same_case_lower, recase_same_case. Qed.

(** [classify] looks at the lowered line only. *)
Lemma classify_lower_eq (tbl : catalog) (a b : string) :
  PyStr.lower a = PyStr.lower b -> classify tbl a = classify tbl b.
Proof. unfold classify. now intros ->. Qed.

Ltac token u t :=
  destruct (String.eqb_spec u t) as [->|?];
  [left; do 2 eexists; split; [|split; [|reflexivity]];
   simpl; eauto 10|].

(** The lowered line is one of the ten move tokens and the line stands
    for that move, or it is none of them and the line stands for no
    move. *)
Lemma classify_cases (raw : string) :
  (exists m details,
     In (m, details) MOVES /\
     (PyStr.lower raw = m \/ PyStr.lower raw = alias details) /\
     classify MOVES raw = Some m) \/
  ((forall m details,
      In (m, details) MOVES ->
      PyStr.lower raw <> m /\ PyStr.lower raw <> alias details) /\
   classify MOVES raw = None).
Proof.
  unfold classify. generalize (PyStr.lower raw). intros u.
  token u "rock". token u "paper". token u "scissor". token u "spock".
  token u "lizard". token u "r". token u "p". token u "s". token u "k".
  token u "l".
  right. split.
  - intros m details Hin. simpl in Hin.
    repeat match type of Hin with
           | _ \/ _ => destruct Hin as [Hin|Hin]
           | False => contradiction
           | (_, _) = (_, _) => injection Hin as <- <-
           end; simpl; split; assumption.
  - unfold get_input_type, is_valid_input. simpl.
    repeat match goal with
           | H : u <> ?t |- _ =>
               apply String.eqb_neq in H; rewrite H; clear H
           end.
    simpl.
    destruct (u =? "help")%string, (u =? "quit")%string,
             (u =? "h")%string, (u =? "q!")%string; reflexivity.
Qed.

(** C8 (as amended). The classifier lowers the typed line with
    [str.lower] ([A]-[Z] become [a]-[z] and the Kelvin sign becomes [k])
    and trims nothing.  The line stands for a move exactly when the lowered
    line is the full name of that move or its one-letter alias; every other
    line stands for no move, among them "help" and "quit", which the
    program reads as commands, and every line with a whitespace character
    in it.  Two lines with the same lower-case form stand for the same
    thing: writing a line in another letter case, or with the Kelvin sign
    for a [k], does not change what it stands for. *)
Theorem classify_lowers_and_does_not_trim :
  (forall raw, classify MOVES raw = classify MOVES (PyStr.lower raw)) /\
  (forall raw m,
     classify MOVES raw = Some m <->
     exists details,
       In (m, details) MOVES /\
       (PyStr.lower raw = m \/ PyStr.lower raw = alias details)) /\
  (forall raw,
     (forall m details,
        In (m, details) MOVES ->
        PyStr.lower raw <> m /\ PyStr.lower raw <> alias details) ->
     classify MOVES raw = None) /\
  (classify MOVES "help" = None /\ get_input_type MOVES "help" = "command") /\
  (classify MOVES "quit" = None /\ get_input_type MOVES "quit" = "command") /\
  (forall mask t,
     classify MOVES (PyStr.recase mask t) = classify MOVES t) /\
  (forall raw, PyStr.has_space raw = true -> classify MOVES raw = None) /\
  (forall a b,
     PyStr.lower a = PyStr.lower b -> classify MOVES a = classify MOVES b) /\
  (forall a b,
     PyStr.same_case a b -> classify MOVES a = classify MOVES b) /\
  (forall before,
     PyStr.same_case before "spoc" ->
     classify MOVES PyStr.kelvin_sign = Some "spock" /\
     classify MOVES (before ++ PyStr.kelvin_sign) = Some "spock").
Proof.
  split; [|split; [|split; [|split; [|split; [|split; [|split;
    [|split; [|split]]]]]]]].
  - intros raw. apply classify_lower_eq. symmetry. apply lower_idempotent.
  - intros raw m. split.
    + intros Hm.
      destruct (classify_cases raw)
        as [[m' [details [Hin [Hor Hm']]]] | [_ Hnone]]; [|congruence].
      rewrite Hm in Hm'. injection Hm' as <-. eauto.
    + intros [details [Hin Hor]].
      unfold classify. simpl in Hin.
      repeat match type of Hin with
             | _ \/ _ => destruct Hin as [Hin|Hin]
             | False => contradiction
             | (_, _) = (_, _) => injection Hin as <- <-
             end; destruct Hor as [-> | ->]; reflexivity.
  - intros raw Hnot.
    destruct (classify_cases raw)
      as [[m [details [Hin [Hor _]]]] | [_ Hnone]]; [|assumption].
    destruct (Hnot m details Hin). tauto.
  - split; reflexivity.
  - split; reflexivity.
  - intros mask t. apply classify_lower_eq, lower_recase.
  - intros raw Hspace.
    destruct (classify_cases raw)
      as [[m [details [Hin [Hor _]]]] | [_ Hnone]]; [|assumption].
    rewrite <- has_space_lower in Hspace. simpl in Hin.
    repeat match type of Hin with
           | _ \/ _ => destruct Hin as [Hin|Hin]
           | False => contradiction
           | (_, _) = (_, _) => injection Hin as <- <-
           end; destruct Hor as [Hu|Hu]; rewrite Hu in Hspace;
      discriminate.
  - intros a b. apply classify_lower_eq.
  - intros a b Hsame. apply classify_lower_eq, same_case_lower, Hsame.
  - intros before Hbefore. split; [reflexivity|].
    destruct before as [|c1 [|c2 [|c3 [|c4 [|c5 before]]]]];
      simpl in Hbefore; try tauto.
    destruct Hbefore as [H1 [H2 [H3 [H4 _]]]].
    change (Some "spock") with (classify MOVES "spock").
    apply classify_lower_eq. cbn [append].
    change (PyStr.lower "spock") with "spock".
    rewrite lower_other
      by (apply after_kelvin_other; intros ->; discriminate H1).
    rewrite lower_other
      by (apply after_kelvin_other; intros ->; discriminate H2).
    rewrite lower_other
      by (apply after_kelvin_other; intros ->; discriminate H3).
    rewrite lower_other
      by (apply after_kelvin_other; intros ->; discriminate H4).
    change (PyStr.lower PyStr.kelvin_sign) with "k".
    rewrite H1, H2, H3, H4. reflexivity.
Qed.

(** C8, the claim as stated fails: a move name typed with a blank before
    and after it, in any letter case, is not taken for the move. *)
Lemma classify_keeps_whitespace :
  classify MOVES "rock" = Some "rock" /\
  classify MOVES " rock " = None /\
  classify MOVES " ROCK" = None /\
  classify MOVES "r " = None /\
  is_valid_input MOVES (PyStr.lower " rock ") = false.
Proof. repeat split. Qed.

Lemma classify_lowers_and_does_not_trim_witness :
  classify MOVES "PaPeR" = Some "paper" /\
  classify MOVES "K" = Some "spock" /\
  classify MOVES "paper P" = None /\
  classify MOVES "LiZaRd" = classify MOVES "lizard" /\
  (classify MOVES PyStr.kelvin_sign = Some "spock" /\
   classify MOVES ("SpOc" ++ PyStr.kelvin_sign) = Some "spock").
Proof.
  destruct classify_lowers_and_does_not_trim
    as [_ [Hmove [_ [_ [_ [_ [Hspace [_ [Hcase Hkelvin]]]]]]]]].
  split; [|split; [|split; [|split]]].
  - apply (Hmove "PaPeR" "paper").
    exists {| alias := "p"; beats := ["rock"; "spock"] |}.
    split; [simpl; tauto | left; reflexivity].
  - apply (Hmove "K" "spock").
    exists {| alias := "k"; beats := ["rock"; "scissor"] |}.
    split; [simpl; tauto | right; reflexivity].
  - apply (Hspace "paper P"). reflexivity.
  - apply (Hcase "LiZaRd" "lizard"). simpl. repeat split.
  - apply (Hkelvin "SpOc"). simpl. repeat split.
Defined.

(** ** The loops of [play_round] and [play_game] *)

Lemma getitem_Raise {V : Type} (d : list (string * V)) (k : string) (e : exn) :
  getitem d k = Raise e -> e = KeyError k.
Proof.
  induction d as [|[k' v] d IH]; simpl.
  - now intros [= <-].
  - destruct (k =? k')%string; [discriminate | exact IH].
Qed.

Lemma process_round_Raise (cfg : settings) (tbl : catalog) (g g' : game)
  (user_move opponent_move : string) (e : exn) :
  process_round cfg tbl g user_move opponent_move = (Raise e, g') ->
  exists k, e = KeyError k.
Proof.
  unfold process_round, determine_round_winner.
  destruct (getitem tbl user_move) eqn:Eu.
  - destruct (getitem tbl opponent_move) eqn:Eo; [discriminate|].
    intros [= <- _]. eexists. eapply getitem_Raise; eassumption.
  - intros [= <- _]. eexists. eapply getitem_Raise; eassumption.
Qed.

(** Reading never adds pending lines, and a successful
    [prompt_enter_to_continue] has read at least one. *)
Lemma prompt_enter_lines_shorter (tbl : catalog) (allow : bool)
  (lines rest : list string) (r : res unit) :
  prompt_enter_lines tbl allow lines = (r, rest) ->
  (length rest <= length lines)%nat /\
  (forall k, r <> Raise (KeyError k)) /\
  (r = Ok tt -> (length rest < length lines)%nat).
Proof.
  revert allow. induction lines as [|line lines IH]; intros allow; simpl.
  - intros [= <- <-]. simpl. split; [lia|]. split; discriminate.
  - destruct (allow && _).
    + destruct (_ || _).
      * intros H. destruct (IH _ H) as [Hle [Hk Hlt]].
        split; [lia|]. split; [assumption|].
        intros Hr. specialize (Hlt Hr). lia.
      * intros [= <- <-]. split; [lia|]. split; discriminate.
    + intros [= <- <-]. split; [lia|]. split; [discriminate | lia].
Qed.

Lemma prompt_enter_to_continue_shorter (tbl : catalog) (allow : bool)
  (w w' : world) (r : res unit) :
  prompt_enter_to_continue tbl allow w = (r, w') ->
  (length (stdin w') <= length (stdin w))%nat /\
  (forall k, r <> Raise (KeyError k)) /\
  (r = Ok tt -> (length (stdin w') < length (stdin w))%nat).
Proof.
  unfold prompt_enter_to_continue.
  destruct (prompt_enter_lines tbl allow (stdin w)) as [r0 rest] eqn:E.
  intros [= <- <-]. simpl. eapply prompt_enter_lines_shorter; eassumption.
Qed.

Lemma process_command_shorter (tbl : catalog) (command : string)
  (w w' : world) (r : res unit) :
  process_command tbl command w = (r, w') ->
  (length (stdin w') <= length (stdin w))%nat /\
  (forall k, r <> Raise (KeyError k)) /\
  (r = Ok tt -> (length (stdin w') < length (stdin w))%nat).
Proof.
  unfold process_command. destruct (PyStr.contains _ _).
  - apply prompt_enter_to_continue_shorter.
  - intros [= <- <-]. split; [lia|]. split; discriminate.
Qed.

(** What one call of [play_round] can do: stop on an exception before
    any round, or hand two moves to [process_round] once. *)
Lemma play_round_loop_cases (cfg : settings) (tbl : catalog) (fuel : nat)
  (g g' : game) (w w' : world) (r : res unit) :
  play_round_loop cfg tbl fuel g w = Some (r, g', w') ->
  (length (stdin w') <= length (stdin w))%nat /\
  ((g' = g /\ exists e, r = Raise e /\ forall k, e <> KeyError k) \/
   (exists user_move opponent_move,
      process_round cfg tbl g user_move opponent_move = (Ok tt, g') /\
      (forall k, r <> Raise (KeyError k)) /\
      (length (stdin w') < length (stdin w))%nat) \/
   (exists user_move opponent_move k,
      process_round cfg tbl g user_move opponent_move
        = (Raise (KeyError k), g') /\
      r = Raise (KeyError k))).
Proof.
  revert w. induction fuel as [|fuel IH]; intros w; simpl; [discriminate|].
  unfold input. destruct (stdin w) as [|line rest] eqn:Ein.
  - intros [= <- <- <-]. rewrite Ein. split; [simpl; lia|].
    left. split; [reflexivity|]. eexists. split; [reflexivity | discriminate].
  - destruct (get_input_type tbl (PyStr.lower line) =? "move")%string.
    + unfold random_choice. destruct (keys tbl) as [|k0 ks] eqn:Ek.
      * intros [= <- <- <-]. simpl. split; [lia|].
        left. split; [reflexivity|].
        eexists. split; [reflexivity | discriminate].
      * unfold process_moves.
        destruct (process_round cfg tbl g _ _) as [[[]|e] g1] eqn:Erun.
        -- destruct (prompt_enter_to_continue tbl true _) as [r1 w1] eqn:Ep.
           intros [= <- <- <-].
           apply prompt_enter_to_continue_shorter in Ep.
           simpl in Ep. destruct Ep as [Hle [Hk _]].
           cbn [length]. split; [lia|]. right. left.
           do 2 eexists. split; [exact Erun|]. split; [assumption | lia].
        -- intros [= <- <- <-]. simpl. split; [lia|].
           destruct (process_round_Raise _ _ _ _ _ _ _ Erun) as [k ->].
           right. right. do 3 eexists. split; [exact Erun | reflexivity].
    + destruct (if (get_input_type tbl (PyStr.lower line) =? "command")%string
                then process_command tbl (PyStr.lower line) (set_stdin rest w)
                else prompt_enter_to_continue tbl true (set_stdin rest w))
        as [r1 w1] eqn:Estep.
      assert (Hshort : (length (stdin w1) <= length rest)%nat /\
                       forall k, r1 <> Raise (KeyError k)).
      { destruct (get_input_type tbl (PyStr.lower line) =? "command")%string.
        - apply process_command_shorter in Estep. simpl in Estep. tauto.
        - apply prompt_enter_to_continue_shorter in Estep.
          simpl in Estep. tauto. }
      destruct Hshort as [Hle Hk].
      destruct r1 as [[]|e].
      * intros Hrec. apply IH in Hrec. simpl. destruct Hrec as [Hle' Hcases].
        split; [lia|].
        destruct Hcases as [Hc | [[um [om [Hr [Hnk Hlt]]]] | Hc]];
          [left; assumption | | right; right; assumption].
        right. left. exists um, om. repeat split; [assumption.. | lia].
      * intros [= <- <- <-]. simpl. split; [lia|].
        left. split; [reflexivity|].
        exists e. split; [reflexivity|].
        intros k ->. now apply (Hk k).
Qed.

(** The fuel of [play_round] is never used up. *)
Lemma play_round_loop_fuel (cfg : settings) (tbl : catalog) (fuel : nat)
  (g : game) (w : world) :
  (length (stdin w) < fuel)%nat ->
  play_round_loop cfg tbl fuel g w <> None.
Proof.
  revert w. induction fuel as [|fuel IH]; intros w Hfuel; [lia|].
  simpl. unfold input. destruct (stdin w) as [|line rest] eqn:Ein;
    [discriminate|].
  destruct (get_input_type tbl (PyStr.lower line) =? "move")%string.
  - destruct (random_choice (keys tbl) (set_stdin rest w)) as [[om|e] w2];
      discriminate.
  - destruct (if (get_input_type tbl (PyStr.lower line) =? "command")%string
              then process_command tbl (PyStr.lower line) (set_stdin rest w)
              else prompt_enter_to_continue tbl true (set_stdin rest w))
      as [r1 w1] eqn:Estep.
    assert (Hshort : (length (stdin w1) <= length rest)%nat).
    { destruct (get_input_type tbl (PyStr.lower line) =? "command")%string.
      - apply process_command_shorter in Estep. simpl in Estep. tauto.
      - apply prompt_enter_to_continue_shorter in Estep.
        simpl in Estep. tauto. }
    destruct r1 as [[]|e]; [|discriminate].
    apply IH. simpl in Hfuel. lia.
Qed.

Lemma play_round_returns (cfg : settings) (tbl : catalog) (g : game)
  (w : world) :
  exists r g' w', play_round cfg tbl g w = Some (r, g', w').
Proof.
  unfold play_round.
  destruct (play_round_loop cfg tbl (S (length (stdin w))) g w)
    as [[[r g'] w']|] eqn:E.
  - eauto.
  - exfalso. eapply play_round_loop_fuel; [|exact E]. lia.
Qed.

(** With more fuel than pending lines the loop of [play_game] comes to
    an end: the match is decided or an exception leaves it. *)
Lemma play_game_loop_fuel (cfg : settings) (tbl : catalog) (fuel : nat)
  (g : game) (w : world) :
  (length (stdin w) < fuel)%nat ->
  play_game_loop cfg tbl fuel g w <> None.
Proof.
  revert g w. induction fuel as [|fuel IH]; intros g w Hfuel; [lia|].
  simpl. destruct (negb (PyStr.truthy (grand_winner g))); [|discriminate].
  destruct (play_round_returns cfg tbl g w) as [r [g' [w' Hround]]].
  rewrite Hround. destruct r as [[]|e]; [|discriminate].
  apply play_round_loop_cases in Hround.
  destruct Hround as [_ [[_ [e [He _]]] | [Hplayed | Hkey]]].
  - discriminate.
  - destruct Hplayed as [_ [_ [_ [_ Hlt]]]]. apply IH. lia.
  - destruct Hkey as [_ [_ [k [_ Hr]]]]. discriminate.
Qed.

(** Every dictionary the loop of [play_game] ends on is one of the
    dictionaries of a match, unless a [KeyError] cut a round short. *)
Lemma play_game_loop_reachable (cfg : settings) (tbl : catalog) (fuel : nat)
  (g g' : game) (w w' : world) (r : res unit) :
  reachable cfg tbl g ->
  play_game_loop cfg tbl fuel g w = Some (r, g', w') ->
  (forall k, r <> Raise (KeyError k)) ->
  reachable cfg tbl g'.
Proof.
  revert g w. induction fuel as [|fuel IH]; intros g w Hreach; simpl;
    destruct (PyStr.truthy (grand_winner g)) eqn:Hopen; simpl;
    try discriminate; try (intros [= <- <- <-] _; assumption).
  destruct (play_round cfg tbl g w) as [[[r1 g1] w1]|] eqn:Hround;
    [|discriminate].
  apply play_round_loop_cases in Hround.
  destruct Hround as [_ Hcases].
  destruct r1 as [[]|e].
  - intros Hrest Hk.
    destruct Hcases as [[_ [e [He _]]] | [Hplayed | Hkey]].
    + discriminate.
    + destruct Hplayed as [um [om [Hrun _]]].
      eapply IH; [|exact Hrest | exact Hk].
      eapply reach_round; eassumption.
    + destruct Hkey as [_ [_ [k [_ Hr]]]]. discriminate.
  - intros [= <- <- <-] Hk.
    destruct Hcases as [[-> _] | [Hplayed | Hkey]].
    + assumption.
    + destruct Hplayed as [um [om [Hrun _]]].
      eapply reach_round; eassumption.
    + destruct Hkey as [_ [_ [k [_ Hr]]]]. now elim (Hk k).
Qed.

(** A match always comes to an end, and the dictionary it ends on is a
    dictionary of a match. *)
Lemma play_game_returns (cfg : settings) (tbl : catalog) (w : world) :
  exists r g w',
    play_game cfg tbl w = Some (r, g, w') /\
    ((forall k, r <> Raise (KeyError k)) -> reachable cfg tbl g).
Proof.
  unfold play_game.
  destruct (play_game_loop cfg tbl (S (length (stdin w))) create_game w)
    as [[[r g] w']|] eqn:Hloop.
  - assert (Hreach : (forall k, r <> Raise (KeyError k)) ->
                     reachable cfg tbl g).
    { intros Hk. eapply play_game_loop_reachable;
        [apply reach_create | exact Hloop | exact Hk]. }
    destruct r as [[]|e].
    + destruct (prompt_enter_to_continue tbl true w') as [r' w''].
      do 3 eexists. split; [reflexivity|].
      intros _. apply Hreach. discriminate.
    + do 3 eexists. split; [reflexivity | exact Hreach].
  - exfalso. eapply play_game_loop_fuel; [|exact Hloop]. lia.
Qed.

(** * Further properties of the program *)

(** ** Kinds of input *)

Lemma contains_In (x : string) (xs : list string) :
  PyStr.contains x xs = true <-> In x xs.
Proof.
  unfold PyStr.contains. rewrite existsb_exists. split.
  - intros [y [Hin Heq]]. apply String.eqb_eq in Heq. now subst.
  - intros Hin. exists x. split; [assumption | apply String.eqb_refl].
Qed.

Lemma contains_false (x : string) (xs : list string) :
  PyStr.contains x xs = false <-> ~ In x xs.
Proof.
  rewrite <- contains_In. destruct (PyStr.contains x xs); split;
    congruence.
Qed.

(** X1. Whatever the catalog, [get_input_type] answers "command" exactly
    for the four command tokens (they win over a move of the same
    spelling), "move" exactly for a move name or alias that is not a
    command token, and "invalid" for everything else. *)
Theorem get_input_type_cases (tbl : catalog) (s : string) :
  let commands := ["help"; "quit"; "h"; "q!"] in
  let moves := keys tbl ++ map alias (values tbl) in
  (get_input_type tbl s = "command" <-> In s commands) /\
  (get_input_type tbl s = "move" <-> In s moves /\ ~ In s commands) /\
  (get_input_type tbl s = "invalid" <-> ~ In s moves /\ ~ In s commands).
Proof.
  intros commands moves.
  unfold get_input_type, is_valid_input.
  change (keys COMMANDS ++ values COMMANDS) with commands.
  fold moves.
  destruct (PyStr.contains s (moves ++ commands)) eqn:Evalid;
    destruct (PyStr.contains s commands) eqn:Ecmd; cbn [negb].
  - apply contains_In in Ecmd.
    (split; [|split]); split; intros H;
      try discriminate; try reflexivity; tauto.
  - apply contains_In in Evalid. apply contains_false in Ecmd.
    apply in_app_or in Evalid.
    (split; [|split]); split; intros H;
      try discriminate; try reflexivity; tauto.
  - apply contains_false in Evalid. apply contains_In in Ecmd.
    elim Evalid. apply in_or_app. tauto.
  - apply contains_false in Evalid. apply contains_false in Ecmd.
    assert (Hmoves : ~ In s moves)
      by (intros H; apply Evalid, in_or_app; tauto).
    clear Evalid.
    (split; [|split]); split; intros H;
      try discriminate; try reflexivity; tauto.
Qed.

(** ** Aliases *)

Lemma expand_in_not_alias (tbl : catalog) (a : string) :
  ~ In a (map alias (values tbl)) -> expand_in tbl a = a.
Proof.
  induction tbl as [|[m d] tbl IH]; simpl; [reflexivity|].
  intros Hnot. destruct (String.eqb_spec a (alias d)) as [->|_].
  - elim Hnot. now left.
  - apply IH. tauto.
Qed.

Lemma expand_in_alias (tbl : catalog) (m : string) (d : move_details) :
  NoDup (map alias (values tbl)) ->
  In (m, d) tbl -> expand_in tbl (alias d) = m.
Proof.
  induction tbl as [|[m' d'] tbl IH]; simpl; [tauto|].
  intros Hnodup [Heq|Hin].
  - injection Heq as -> ->. now rewrite String.eqb_refl.
  - inversion Hnodup as [|? ? Hfresh Hrest]; subst.
    destruct (String.eqb_spec (alias d) (alias d')) as [Heq|_].
    + elim Hfresh. rewrite <- Heq.
      apply (in_map snd) in Hin. apply (in_map alias) in Hin. exact Hin.
    + now apply IH.
Qed.

Lemma getitem_NoDup (tbl : catalog) (m : string) (d : move_details) :
  NoDup (keys tbl) -> In (m, d) tbl -> getitem tbl m = Ok d.
Proof.
  induction tbl as [|[m' d'] tbl IH]; simpl; [tauto|].
  intros Hnodup [Heq|Hin].
  - injection Heq as -> ->. now rewrite String.eqb_refl.
  - inversion Hnodup as [|? ? Hfresh Hrest]; subst.
    destruct (String.eqb_spec m m') as [->|_].
    + elim Hfresh. apply (in_map fst) in Hin. exact Hin.
    + now apply IH.
Qed.

(** X2. In a catalog whose names are distinct and whose aliases are
    distinct, expanding the alias of a move gives the name of that move,
    and looking the name up gives back the entry the alias came from; a
    string that is no alias is returned as it is. *)
Theorem expand_move_abbreviation_round_trip (tbl : catalog) :
  NoDup (keys tbl) ->
  NoDup (map alias (values tbl)) ->
  (forall m d,
     In (m, d) tbl ->
     expand_move_abbreviation tbl (alias d) = m /\
     getitem tbl (expand_move_abbreviation tbl (alias d)) = Ok d) /\
  (forall a,
     ~ In a (map alias (values tbl)) ->
     expand_move_abbreviation tbl a = a).
Proof.
  intros Hkeys Haliases. split.
  - intros m d Hin. unfold expand_move_abbreviation.
    rewrite (expand_in_alias tbl m d Haliases Hin).
    split; [reflexivity | now apply getitem_NoDup].
  - intros a. apply expand_in_not_alias.
Qed.

Lemma expand_move_abbreviation_round_trip_witness :
  (forall m d,
     In (m, d) MOVES ->
     expand_move_abbreviation MOVES (alias d) = m /\
     getitem MOVES (expand_move_abbreviation MOVES (alias d)) = Ok d) /\
  (forall a,
     ~ In a (map alias (values MOVES)) ->
     expand_move_abbreviation MOVES a = a).
Proof.
  apply (expand_move_abbreviation_round_trip MOVES).
  - repeat constructor; simpl; intuition discriminate.
  - repeat constructor; simpl; intuition discriminate.
Defined.

(** ** A move that is not in the catalog *)

Lemma getitem_not_In {V : Type} (d : list (string * V)) (k : string) :
  ~ In k (keys d) -> getitem d k = Raise (KeyError k).
Proof.
  intros Hnot. destruct (getitem d k) as [v|e] eqn:E.
  - elim Hnot. eapply getitem_Ok_In; eassumption.
  - now rewrite (getitem_Raise d k e E).
Qed.

(** X3. A round with a move that is not a name of the catalog raises
    [KeyError] for that move (for the user's move first), and by then the
    round counter has already been advanced: the dictionary is left with
    [current_round] one higher and nothing else changed. *)
Theorem process_round_unknown_move (cfg : settings) (tbl : catalog)
  (g : game) (user_move opponent_move : string) :
  ~ In user_move (keys tbl) \/ ~ In opponent_move (keys tbl) ->
  exists k,
    process_round cfg tbl g user_move opponent_move =
      (Raise (KeyError k), set_current_round (current_round g + 1) g) /\
    (~ In user_move (keys tbl) -> k = user_move) /\
    (In user_move (keys tbl) -> k = opponent_move).
Proof.
  intros Hmissing. unfold process_round, determine_round_winner.
  destruct (getitem tbl user_move) as [du|e] eqn:Eu.
  - assert (Hu : In user_move (keys tbl))
      by (eapply getitem_Ok_In; eassumption).
    destruct Hmissing as [Hno|Hno]; [contradiction|].
    rewrite (getitem_not_In tbl opponent_move Hno).
    exists opponent_move. split; [reflexivity|]. split; tauto.
  - rewrite (getitem_Raise tbl user_move e Eu).
    exists user_move. split; [reflexivity|]. split; [tauto|].
    intros Hu. destruct (getitem_In tbl user_move Hu) as [v Hv].
    congruence.
Qed.

Lemma process_round_unknown_move_witness :
  exists k,
    process_round SETTINGS MOVES create_game "rock" "banana" =
      (Raise (KeyError k), set_current_round (current_round create_game + 1)
                             create_game) /\
    (~ In "rock" (keys MOVES) -> k = "rock") /\
    (In "rock" (keys MOVES) -> k = "banana").
Proof.
  apply (process_round_unknown_move SETTINGS MOVES create_game
           "rock" "banana").
  right. simpl. intuition discriminate.
Defined.

(** ** What a call of [play_round] does *)

Lemma get_input_type_command_In (tbl : catalog) (s : string) :
  get_input_type tbl s = "command" -> In s ["help"; "quit"; "h"; "q!"].
Proof.
  unfold get_input_type.
  destruct (negb (is_valid_input tbl s)); [discriminate|].
  change (keys COMMANDS ++ values COMMANDS) with ["help"; "quit"; "h"; "q!"].
  destruct (PyStr.contains s ["help"; "quit"; "h"; "q!"]) eqn:E;
    [|discriminate].
  intros _. now apply contains_In.
Qed.

(** A command that is not a request for help is "quit" or "q!". *)
Lemma command_not_help (tbl : catalog) (s : string) :
  (get_input_type tbl s =? "command")%string = true ->
  PyStr.contains s ["help"; "h"] = false ->
  In s ["quit"; "q!"].
Proof.
  intros Hcmd Hhelp. apply String.eqb_eq, get_input_type_command_In in Hcmd.
  apply contains_false in Hhelp. simpl in Hcmd, Hhelp |- *. tauto.
Qed.

(** [prompt_enter_to_continue] leaves a tail of the pending lines, ends
    normally or on [EOFError] or [SystemExit], and exits only on a line
    that reads "quit" or "q!". *)
Lemma prompt_enter_lines_result (tbl : catalog) (allow : bool)
  (lines rest : list string) (r : res unit) :
  prompt_enter_lines tbl allow lines = (r, rest) ->
  incl rest lines /\
  (r = Ok tt \/ r = Raise EOFError \/ r = Raise SystemExit) /\
  (r = Raise SystemExit ->
   exists l, In l lines /\ In (PyStr.lower l) ["quit"; "q!"]).
Proof.
  revert allow. induction lines as [|line lines IH]; intros allow;
    cbn [prompt_enter_lines].
  - intros [= <- <-]. split; [apply incl_refl|].
    split; [tauto | discriminate].
  - destruct (allow && _) eqn:Ecmd.
    + destruct (PyStr.contains _ _) eqn:Ehelp.
      * intros H. destruct (IH _ H) as [Hincl [Hr Hexit]].
        split; [now apply incl_tl|]. split; [assumption|].
        intros Hq. destruct (Hexit Hq) as [l [Hl Hquit]].
        exists l. split; [now right | assumption].
      * intros [= <- <-]. split; [apply incl_tl, incl_refl|].
        split; [tauto|]. intros _. exists line. split; [now left|].
        apply andb_true_iff in Ecmd. destruct Ecmd as [_ Ecmd].
        eapply command_not_help; eassumption.
    + intros [= <- <-]. split; [apply incl_tl, incl_refl|].
      split; [tauto | discriminate].
Qed.

Lemma prompt_enter_to_continue_result (tbl : catalog) (allow : bool)
  (w w' : world) (r : res unit) :
  prompt_enter_to_continue tbl allow w = (r, w') ->
  incl (stdin w') (stdin w) /\
  (r = Ok tt \/ r = Raise EOFError \/ r = Raise SystemExit) /\
  (r = Raise SystemExit ->
   exists l, In l (stdin w) /\ In (PyStr.lower l) ["quit"; "q!"]).
Proof.
  unfold prompt_enter_to_continue.
  destruct (prompt_enter_lines tbl allow (stdin w)) as [r0 rest] eqn:E.
  intros [= <- <-]. simpl. eapply prompt_enter_lines_result; eassumption.
Qed.

Lemma random_choice_In (seq : list string) (w w' : world) (x : string) :
  random_choice seq w = (Ok x, w') -> In x seq /\ stdin w' = stdin w.
Proof.
  unfold random_choice. destruct seq as [|y seq]; [discriminate|].
  set (n := Nat.modulo (rand w (drawn w)) (length (y :: seq))).
  assert (Hn : (n < length (y :: seq))%nat)
    by (apply Nat.mod_upper_bound; discriminate).
  clearbody n. intros [= <- <-]. split; [|reflexivity].
  exact (@nth_In string n (y :: seq) y Hn).
Qed.

Lemma random_choice_Raise (seq : list string) (w w' : world) (e : exn) :
  random_choice seq w = (Raise e, w') ->
  e = IndexError /\ seq = [] /\ w' = w.
Proof.
  unfold random_choice. destruct seq as [|y seq]; [|discriminate].
  intros [= <- <-]. auto.
Qed.

Lemma classify_move (tbl : catalog) (line : string) :
  (get_input_type tbl (PyStr.lower line) =? "move")%string = true ->
  classify tbl line =
    Some (if PyStr.len (PyStr.lower line) =? 1
          then expand_move_abbreviation tbl (PyStr.lower line)
          else PyStr.lower line).
Proof. unfold classify. now intros ->. Qed.

(** A call of [play_round] ends before any round, on [EOFError] or
    [SystemExit] (or [IndexError] when the catalog is empty), or it hands
    [process_round] the move one of the pending lines stands for and a
    move name of the catalog, once.  It exits only on a line that reads
    "quit" or "q!". *)
Lemma play_round_loop_spec (cfg : settings) (tbl : catalog) (fuel : nat)
  (g g' : game) (w w' : world) (r : res unit) :
  play_round_loop cfg tbl fuel g w = Some (r, g', w') ->
  incl (stdin w') (stdin w) /\
  (r = Raise SystemExit ->
   exists l, In l (stdin w) /\ In (PyStr.lower l) ["quit"; "q!"]) /\
  ((g' = g /\
    (r = Raise EOFError \/ r = Raise SystemExit \/
     (r = Raise IndexError /\ keys tbl = []))) \/
   (exists line m om,
      In line (stdin w) /\ classify tbl line = Some m /\
      In om (keys tbl) /\
      ((process_round cfg tbl g m om = (Ok tt, g') /\
        (r = Ok tt \/ r = Raise EOFError \/ r = Raise SystemExit)) \/
       (exists k,
          process_round cfg tbl g m om = (Raise (KeyError k), g') /\
          r = Raise (KeyError k))))).
Proof.
  revert w. induction fuel as [|fuel IH]; intros w; [discriminate|].
  cbn [play_round_loop]. unfold input.
  destruct (stdin w) as [|line rest] eqn:Ein.
  - intros [= <- <- <-]. rewrite Ein.
    split; [apply incl_refl|]. split; [discriminate|]. left. tauto.
  - cbv zeta.
    destruct (get_input_type tbl (PyStr.lower line) =? "move")%string
      eqn:Emove.
    + destruct (random_choice (keys tbl) (set_stdin rest w))
        as [[om|e] w2] eqn:Ernd.
      * apply random_choice_In in Ernd. destruct Ernd as [Hom Hw2].
        simpl in Hw2. unfold process_moves.
        pose proof (classify_move tbl line Emove) as Hclass.
        destruct (process_round cfg tbl g _ om) as [[[]|e] g1] eqn:Erun.
        -- destruct (prompt_enter_to_continue tbl true w2)
             as [r1 w3] eqn:Ep.
           intros [= <- <- <-].
           apply prompt_enter_to_continue_result in Ep.
           rewrite Hw2 in Ep. destruct Ep as [Hincl [Hr Hexit]].
           split; [now apply incl_tl|]. split.
           ++ intros Hq. destruct (Hexit Hq) as [l [Hl Hquit]].
              exists l. split; [now right | assumption].
           ++ right. exists line. do 2 eexists.
              split; [now left|]. split; [exact Hclass|].
              split; [exact Hom|]. left. split; [exact Erun | exact Hr].
        -- intros [= <- <- <-]. rewrite Hw2.
           split; [apply incl_tl, incl_refl|].
           destruct (process_round_Raise _ _ _ _ _ _ _ Erun) as [k ->].
           split; [discriminate|].
           right. exists line. do 2 eexists.
           split; [now left|]. split; [exact Hclass|].
           split; [exact Hom|]. right. exists k. split; [exact Erun|].
           reflexivity.
      * apply random_choice_Raise in Ernd. destruct Ernd as [-> [Hk ->]].
        intros [= <- <- <-]. simpl.
        split; [apply incl_tl, incl_refl|]. split; [discriminate|].
        left. tauto.
    + destruct (if (get_input_type tbl (PyStr.lower line) =? "command")%string
                then process_command tbl (PyStr.lower line) (set_stdin rest w)
                else prompt_enter_to_continue tbl true (set_stdin rest w))
        as [r1 w1] eqn:Estep.
      assert (Hstep :
        incl (stdin w1) rest /\
        (r1 = Ok tt \/ r1 = Raise EOFError \/ r1 = Raise SystemExit) /\
        (r1 = Raise SystemExit ->
         exists l, In l (line :: rest) /\ In (PyStr.lower l) ["quit"; "q!"])).
      { destruct (get_input_type tbl (PyStr.lower line) =? "command")%string
          eqn:Ecmd.
        - unfold process_command in Estep.
          destruct (PyStr.contains (PyStr.lower line) ["help"; "h"])
            eqn:Ehelp.
          + apply prompt_enter_to_continue_result in Estep.
            simpl in Estep. destruct Estep as [Hincl [Hr Hexit]].
            split; [assumption|]. split; [assumption|].
            intros Hq. destruct (Hexit Hq) as [l [Hl Hquit]].
            exists l. split; [now right | assumption].
          + injection Estep as <- <-. simpl.
            split; [apply incl_refl|]. split; [tauto|].
            intros _. exists line. split; [now left|].
            eapply command_not_help; eassumption.
        - apply prompt_enter_to_continue_result in Estep.
          simpl in Estep. destruct Estep as [Hincl [Hr Hexit]].
          split; [assumption|]. split; [assumption|].
          intros Hq. destruct (Hexit Hq) as [l [Hl Hquit]].
          exists l. split; [now right | assumption]. }
      destruct Hstep as [Hincl [Hr Hexit]].
      destruct r1 as [[]|e].
      * intros Hrec. apply IH in Hrec.
        destruct Hrec as [Hincl' [Hexit' Hcases]].
        split; [apply incl_tl; eapply incl_tran; eassumption|].
        split.
        -- intros Hq. destruct (Hexit' Hq) as [l [Hl Hquit]].
           exists l. split; [right; now apply Hincl | assumption].
        -- destruct Hcases as [Hc | [l [m [om [Hl Hc]]]]];
             [left; assumption|].
           right. exists l, m, om. split; [right; now apply Hincl|].
           exact Hc.
      * intros [= <- <- <-].
        split; [now apply incl_tl|]. split; [exact Hexit|].
        left. split; [reflexivity|].
        destruct Hr as [Hr | [Hr | Hr]]; [discriminate | tauto | tauto].
Qed.

Lemma classify_MOVES_key (line m : string) :
  classify MOVES line = Some m -> In m (keys MOVES).
Proof.
  intros Hm.
  destruct (classify_cases line)
    as [[m' [details [Hin [_ Hm']]]] | [_ Hnone]]; [|congruence].
  rewrite Hm in Hm'. injection Hm' as <-.
  apply (in_map fst) in Hin. exact Hin.
Qed.

(** X4. [play_round] looks at a typed line only through the move it
    stands for: two lines that stand for the same move (a name, its alias,
    any letter case) give the same call, result and dictionary, whatever
    follows them. *)
Theorem play_round_same_move (cfg : settings) (tbl : catalog) (g : game)
  (w : world) (line1 line2 : string) (rest : list string) :
  classify tbl line1 <> None ->
  classify tbl line1 = classify tbl line2 ->
  play_round cfg tbl g (set_stdin (line1 :: rest) w) =
  play_round cfg tbl g (set_stdin (line2 :: rest) w).
Proof.
  unfold classify, play_round. cbn [stdin set_stdin length].
  cbn [play_round_loop]. unfold input. cbn [stdin set_stdin rand drawn].
  destruct (get_input_type tbl (PyStr.lower line1) =? "move")%string;
    [|intros H; now elim H].
  intros _.
  destruct (get_input_type tbl (PyStr.lower line2) =? "move")%string;
    [|discriminate].
  intros [= Hsame].
  destruct (random_choice (keys tbl) _) as [[om|e] w2]; [|reflexivity].
  unfold process_moves. now rewrite Hsame.
Qed.

Lemma play_round_same_move_witness :
  let w := {| stdin := []; rand := fun n => n; drawn := 0 |} in
  play_round SETTINGS MOVES create_game (set_stdin ["K"; "go on"] w) =
  play_round SETTINGS MOVES create_game (set_stdin ["Spock"; "go on"] w).
Proof.
  intros w.
  apply (play_round_same_move SETTINGS MOVES create_game w
           "K" "Spock" ["go on"]).
  - discriminate.
  - reflexivity.
Defined.

(** X5. On the catalog of the program [play_round] never hands
    [process_round] a move that is not in the catalog.  A call of
    [play_round] plays no round, and then leaves the dictionary as it was
    and does not end normally; or it plays exactly one round, between the
    move one of the pending lines stands for and a move name of the
    catalog, and [process_round] returns normally with the dictionary the
    call ends on. *)
Theorem play_round_on_MOVES (cfg : settings) (g g' : game) (w w' : world)
  (r : res unit) :
  play_round cfg MOVES g w = Some (r, g', w') ->
  (g' = g /\ r <> Ok tt) \/
  (exists line m om,
     In line (stdin w) /\ classify MOVES line = Some m /\
     In m (keys MOVES) /\ In om (keys MOVES) /\
     process_round cfg MOVES g m om = (Ok tt, g')).
Proof.
  intros Hround. apply play_round_loop_spec in Hround.
  destruct Hround as [_ [_ [[-> Hr] | [line [m [om [Hl [Hm [Hom Hrun]]]]]]]]].
  - left. split; [reflexivity|].
    destruct Hr as [-> | [-> | [-> _]]]; discriminate.
  - pose proof (classify_MOVES_key line m Hm) as Hkey.
    pose proof (determine_round_winner_keys cfg MOVES m om Hkey Hom) as Hw.
    destruct (process_round_winner cfg MOVES g _ _ _ Hw) as [g1 [Hok _]].
    destruct Hrun as [[Hrun Hr] | [k [Hrun _]]]; [|congruence].
    right. exists line, m, om. tauto.
Qed.

Lemma play_round_on_MOVES_witness :
  let w := {| stdin := ["banana"; ""; "K"; "go on"];
              rand := fun _ => 0%nat;
              drawn := 0 |} in
  let w' := {| stdin := []; rand := fun _ => 0%nat; drawn := 1 |} in
  let g' := {| current_round := 2;
               tiebreaker_round := false;
               user_score := 1;
               opponent_score := 0;
               round_winner := Some "user";
               grand_winner := None |} in
  play_round SETTINGS MOVES create_game w = Some (Ok tt, g', w') /\
  ((g' = create_game /\ Ok tt <> Ok tt) \/
   (exists line m om,
      In line (stdin w) /\ classify MOVES line = Some m /\
      In m (keys MOVES) /\ In om (keys MOVES) /\
      process_round SETTINGS MOVES create_game m om = (Ok tt, g'))).
Proof.
  intros w w' g'. split; [reflexivity|].
  apply (play_round_on_MOVES SETTINGS create_game g' w w' (Ok tt)).
  reflexivity.
Defined.

(** ** Invariants of a match *)

Lemma determine_round_winner_shape (cfg : settings) (tbl : catalog)
  (a b : string) (winner : option string) :
  determine_round_winner cfg tbl a b = Ok winner ->
  winner = None \/ winner = Some "user" \/
  winner = Some (opponent_name cfg).
Proof.
  unfold determine_round_winner.
  destruct (getitem tbl a) as [da|]; [|discriminate].
  destruct (getitem tbl b) as [db|]; [|discriminate].
  intros [= <-].
  destruct (PyStr.contains a (beats db)); [tauto|].
  destruct (PyStr.contains b (beats da)); tauto.
Qed.

(** While the loop of [play_game] goes on, both scores are below 3. *)
Lemma open_match_scores (cfg : settings) (tbl : catalog) (g : game) :
  opponent_name cfg <> "" ->
  reachable cfg tbl g ->
  PyStr.truthy (grand_winner g) = false ->
  user_score g <= 2 /\ opponent_score g <= 2.
Proof.
  intros Hname Hreach Hopen.
  destruct (reachable_invariant cfg tbl g Hname Hreach) as [Hgw _].
  rewrite Hgw in Hopen.
  pose proof (truthy_determine_grand_winner cfg g Hname) as Hiff.
  destruct (Z.le_gt_cases (user_score g) 2);
    destruct (Z.le_gt_cases (opponent_score g) 2); try lia;
    (assert (Ht : PyStr.truthy (determine_grand_winner cfg g) = true)
       by (apply Hiff; lia));
    congruence.
Qed.

Lemma reachable_scores_nonneg (cfg : settings) (tbl : catalog) (g : game) :
  reachable cfg tbl g -> 0 <= user_score g /\ 0 <= opponent_score g.
Proof.
  intros Hreach.
  induction Hreach as [|g g' um om Hreach IH Hopen Hrun]; [simpl; lia|].
  destruct (process_round_Ok _ _ _ _ _ _ Hrun) as [winner Hw].
  destruct (process_round_winner cfg tbl g _ _ _ Hw)
    as [g'' [Hrun' [_ [Hus [Hos _]]]]].
  rewrite Hrun in Hrun'. injection Hrun' as <-.
  destruct (PyStr.eq_str winner "user"),
           (PyStr.eq_str winner (opponent_name cfg)); lia.
Qed.

(** The scores, the round counter, the flag and the recorded round
    winner along a match. *)
Lemma reachable_state (cfg : settings) (tbl : catalog) (g : game) :
  opponent_name cfg <> "" ->
  opponent_name cfg <> "user" ->
  reachable cfg tbl g ->
  0 <= user_score g <= 3 /\ 0 <= opponent_score g <= 3 /\
  user_score g + opponent_score g <= 5 /\ 1 <= current_round g /\
  user_score g + opponent_score g <= current_round g - 1 /\
  tiebreaker_round g = (user_score g =? 2) && (opponent_score g =? 2) /\
  (round_winner g = None \/ round_winner g = Some "user" \/
   round_winner g = Some (opponent_name cfg)).
Proof.
  intros Hname Huser Hreach.
  induction Hreach as [|g g' user_move opponent_move Hreach IH Hopen Hrun].
  - simpl. repeat split; try lia. tauto.
  - destruct IH as [_ [_ [_ [Hround [Hsum _]]]]].
    destruct (open_match_scores cfg tbl g Hname Hreach Hopen)
      as [Hu2 Ho2].
    destruct (reachable_scores_nonneg cfg tbl g Hreach) as [Hu0 Ho0].
    destruct (process_round_Ok _ _ _ _ _ _ Hrun) as [winner Hw].
    destruct (process_round_winner cfg tbl g _ _ _ Hw)
      as [g'' [Hrun' [Hcr [Hus [Hos [Hrw [_ Hflag]]]]]]].
    rewrite Hrun in Hrun'. injection Hrun' as <-.
    pose proof (determine_round_winner_shape _ _ _ _ _ Hw) as Hshape.
    rewrite Hrw.
    destruct (PyStr.eq_str winner "user") eqn:Eu.
    + rewrite (eq_str_user_opponent cfg winner Huser Eu) in Hos.
      repeat split; try lia; assumption.
    + destruct (PyStr.eq_str winner (opponent_name cfg));
        repeat split; try lia; assumption.
Qed.

(** X6. Along a match, with an opponent whose name is neither empty nor
    "user": each score stays between 0 and 3 and the two are never both
    3; the round counter is at least 1 and the points given so far never
    exceed the rounds played, [current_round - 1]; the tiebreaker flag is
    set exactly at 2-2 and never together with a grand winner; and the
    recorded round winner is [None], "user" or the opponent's name. *)
Theorem match_invariants (cfg : settings) (tbl : catalog) (g : game) :
  opponent_name cfg <> "" ->
  opponent_name cfg <> "user" ->
  reachable cfg tbl g ->
  0 <= user_score g <= 3 /\
  0 <= opponent_score g <= 3 /\
  user_score g + opponent_score g <= 5 /\
  1 <= current_round g /\
  user_score g + opponent_score g <= current_round g - 1 /\
  tiebreaker_round g = (user_score g =? 2) && (opponent_score g =? 2) /\
  (tiebreaker_round g = true -> grand_winner g = None) /\
  (round_winner g = None \/ round_winner g = Some "user" \/
   round_winner g = Some (opponent_name cfg)).
Proof.
  intros Hname Huser Hreach.
  destruct (reachable_invariant cfg tbl g Hname Hreach) as [Hgw _].
  destruct (reachable_state cfg tbl g Hname Huser Hreach)
    as [Hu [Ho [Hsum [Hcr [Hpts [Hflag Hrw]]]]]].
  repeat split; try lia; try assumption.
  intros Htie. rewrite Hflag in Htie.
  apply andb_true_iff in Htie. rewrite !Z.eqb_eq in Htie.
  rewrite Hgw. unfold determine_grand_winner.
  destruct (Z.gtb_spec (user_score g) 2); [lia|].
  destruct (Z.gtb_spec (opponent_score g) 2); [lia | reflexivity].
Qed.

Lemma match_invariants_witness :
  let g := snd (process_rounds SETTINGS MOVES create_game
                  [("rock", "paper"); ("rock", "rock");
                   ("spock", "rock")]) in
  user_score g = 1 /\ opponent_score g = 1 /\ current_round g = 4 /\
  0 <= user_score g <= 3 /\
  0 <= opponent_score g <= 3 /\
  user_score g + opponent_score g <= 5 /\
  1 <= current_round g /\
  user_score g + opponent_score g <= current_round g - 1 /\
  tiebreaker_round g = (user_score g =? 2) && (opponent_score g =? 2) /\
  (tiebreaker_round g = true -> grand_winner g = None) /\
  (round_winner g = None \/ round_winner g = Some "user" \/
   round_winner g = Some (opponent_name SETTINGS)).
Proof.
  intros g. do 3 (split; [reflexivity|]).
  apply (match_invariants SETTINGS MOVES g).
  - discriminate.
  - discriminate.
  - unfold g.
    eapply reach_round with (user_move := "spock") (opponent_move := "rock");
      [| |reflexivity]; [|reflexivity].
    eapply reach_round with (user_move := "rock") (opponent_move := "rock");
      [| |reflexivity]; [|reflexivity].
    eapply reach_round with (user_move := "rock") (opponent_move := "paper");
      [| |reflexivity]; [|reflexivity].
    apply reach_create.
Defined.

(** ** The end of a match *)

Lemma play_game_loop_decided (cfg : settings) (tbl : catalog) (fuel : nat)
  (g g' : game) (w w' : world) :
  play_game_loop cfg tbl fuel g w = Some (Ok tt, g', w') ->
  PyStr.truthy (grand_winner g') = true.
Proof.
  revert g w. induction fuel as [|fuel IH]; intros g w; simpl;
    destruct (PyStr.truthy (grand_winner g)) eqn:Hopen; simpl;
    try discriminate; try (now intros [= <- <-]).
  destruct (play_round cfg tbl g w) as [[[[[]|e] g1] w1]|];
    try discriminate.
  apply IH.
Qed.

Lemma play_game_Ok (cfg : settings) (tbl : catalog) (w w' : world)
  (g : game) :
  play_game cfg tbl w = Some (Ok tt, g, w') ->
  reachable cfg tbl g /\ PyStr.truthy (grand_winner g) = true.
Proof.
  unfold play_game.
  destruct (play_game_loop cfg tbl (S (length (stdin w))) create_game w)
    as [[[[[]|e] g1] w1]|] eqn:Hloop; try discriminate.
  destruct (prompt_enter_to_continue tbl true w1) as [r' w''].
  intros [= -> -> <-]. split.
  - eapply play_game_loop_reachable;
      [apply reach_create | exact Hloop | discriminate].
  - eapply play_game_loop_decided. exact Hloop.
Qed.

(** X7. When [play_game] returns normally, with an opponent whose name is
    neither empty nor "user", the match is decided: one side has exactly
    3 points and is the grand winner, the other side has at most 2,
    [display_game_results] announces that side, and at least three rounds
    were played. *)
Theorem decided_match (cfg : settings) (tbl : catalog) (w w' : world)
  (g : game) :
  opponent_name cfg <> "" ->
  opponent_name cfg <> "user" ->
  play_game cfg tbl w = Some (Ok tt, g, w') ->
  4 <= current_round g /\
  ((user_score g = 3 /\ 0 <= opponent_score g <= 2 /\
    grand_winner g = Some "user" /\
    display_game_results_key g = "user_grand_winner") \/
   (opponent_score g = 3 /\ 0 <= user_score g <= 2 /\
    grand_winner g = Some (opponent_name cfg) /\
    display_game_results_key g = "opponent_grand_winner")).
Proof.
  intros Hname Huser Hplay.
  destruct (play_game_Ok cfg tbl w w' g Hplay) as [Hreach Hover].
  destruct (reachable_invariant cfg tbl g Hname Hreach) as [Hgw Hboth].
  specialize (Hboth Huser).
  destruct (reachable_scores_nonneg cfg tbl g Hreach) as [Hu0 Ho0].
  assert (Hpts : user_score g + opponent_score g <= current_round g - 1 /\
                 user_score g <= 3 /\ opponent_score g <= 3).
  { clear - Hreach Hname Huser.
    induction Hreach as [|g g' um om Hreach IH Hopen Hrun]; [simpl; lia|].
    destruct (open_match_scores cfg tbl g Hname Hreach Hopen) as [Hu2 Ho2].
    destruct (process_round_Ok _ _ _ _ _ _ Hrun) as [winner Hw].
    destruct (process_round_winner cfg tbl g _ _ _ Hw)
      as [g'' [Hrun' [Hcr [Hus [Hos _]]]]].
    rewrite Hrun in Hrun'. injection Hrun' as <-.
    destruct (PyStr.eq_str winner "user") eqn:Eu.
    - rewrite (eq_str_user_opponent cfg winner Huser Eu) in Hos. lia.
    - destruct (PyStr.eq_str winner (opponent_name cfg)); lia. }
  destruct Hpts as [Hpts [Hu3 Ho3]].
  pose proof (truthy_determine_grand_winner cfg g Hname) as Hiff.
  rewrite <- Hgw in Hiff. apply Hiff in Hover.
  unfold display_game_results_key. rewrite Hgw.
  unfold determine_grand_winner.
  destruct (Z.gtb_spec (user_score g) 2).
  - split; [lia|]. left. repeat split; try lia.
  - destruct (Z.gtb_spec (opponent_score g) 2); [|lia].
    split; [lia|]. right. repeat split; try lia.
    simpl. apply String.eqb_neq in Huser. now rewrite Huser.
Qed.

Lemma decided_match_witness :
  let w := {| stdin := ["r"; ""; "R"; ""; "rock"; ""; ""];
              rand := fun _ => 2%nat;
              drawn := 0 |} in
  let w' := {| stdin := []; rand := fun _ => 2%nat; drawn := 3 |} in
  let g := {| current_round := 4;
              tiebreaker_round := false;
              user_score := 3;
              opponent_score := 0;
              round_winner := Some "user";
              grand_winner := Some "user" |} in
  play_game SETTINGS MOVES w = Some (Ok tt, g, w') /\
  4 <= current_round g /\
  ((user_score g = 3 /\ 0 <= opponent_score g <= 2 /\
    grand_winner g = Some "user" /\
    display_game_results_key g = "user_grand_winner") \/
   (opponent_score g = 3 /\ 0 <= user_score g <= 2 /\
    grand_winner g = Some (opponent_name SETTINGS) /\
    display_game_results_key g = "opponent_grand_winner")).
Proof.
  intros w w' g. split; [reflexivity|].
  apply (decided_match SETTINGS MOVES w w' g).
  - discriminate.
  - discriminate.
  - reflexivity.
Defined.

(** ** Leaving the program *)

Lemma get_input_type_command (tbl : catalog) (s : string) :
  In s ["help"; "quit"; "h"; "q!"] -> get_input_type tbl s = "command".
Proof.
  intros Hs. unfold get_input_type, is_valid_input.
  change (keys COMMANDS ++ values COMMANDS) with ["help"; "quit"; "h"; "q!"].
  assert (Hvalid : PyStr.contains s
            ((keys tbl ++ map alias (values tbl)) ++
             ["help"; "quit"; "h"; "q!"]) = true)
    by (apply contains_In, in_or_app; now right).
  rewrite Hvalid. cbn [negb].
  apply contains_In in Hs. now rewrite Hs.
Qed.

Lemma play_game_loop_exit (cfg : settings) (tbl : catalog) (fuel : nat)
  (g g' : game) (w w' : world) (r : res unit) :
  play_game_loop cfg tbl fuel g w = Some (r, g', w') ->
  incl (stdin w') (stdin w) /\
  (r = Raise SystemExit ->
   exists l, In l (stdin w) /\ In (PyStr.lower l) ["quit"; "q!"]).
Proof.
  revert g w. induction fuel as [|fuel IH]; intros g w; simpl;
    destruct (PyStr.truthy (grand_winner g)); simpl;
    try discriminate;
    try (intros [= <- <- <-]; split; [apply incl_refl | discriminate]).
  destruct (play_round cfg tbl g w) as [[[r1 g1] w1]|] eqn:Hround;
    [|discriminate].
  apply play_round_loop_spec in Hround.
  destruct Hround as [Hincl [Hexit _]].
  destruct r1 as [[]|e].
  - intros Hrest. apply IH in Hrest. destruct Hrest as [Hincl' Hexit'].
    split; [eapply incl_tran; eassumption|].
    intros Hq. destruct (Hexit' Hq) as [l [Hl Hquit]].
    exists l. split; [now apply Hincl | assumption].
  - intros [= <- <- <-]. split; assumption.
Qed.

(** X8. [SystemExit] comes from the quit command alone: if [play_game]
    ends on [SystemExit], one of the pending lines read "quit" or "q!"
    in some letter case; and such a line typed at the move prompt ends
    [play_round] on [SystemExit] at once, whatever the catalog, with the
    dictionary untouched and only that line read. *)
Theorem exit_on_quit_only (cfg : settings) (tbl : catalog) :
  (forall w g w',
     play_game cfg tbl w = Some (Raise SystemExit, g, w') ->
     exists l, In l (stdin w) /\ In (PyStr.lower l) ["quit"; "q!"]) /\
  (forall g w line rest,
     In (PyStr.lower line) ["quit"; "q!"] ->
     play_round cfg tbl g (set_stdin (line :: rest) w) =
       Some (Raise SystemExit, g, set_stdin rest w)).
Proof.
  split.
  - intros w g w'. unfold play_game.
    destruct (play_game_loop cfg tbl (S (length (stdin w))) create_game w)
      as [[[r1 g1] w1]|] eqn:Hloop; [|discriminate].
    apply play_game_loop_exit in Hloop. destruct Hloop as [Hincl Hexit].
    destruct r1 as [[]|e].
    + destruct (prompt_enter_to_continue tbl true w1) as [r' w''] eqn:Ep.
      intros [= -> _ _].
      apply prompt_enter_to_continue_result in Ep.
      destruct Ep as [_ [_ Hq]].
      destruct (Hq eq_refl) as [l [Hl Hquit]].
      exists l. split; [now apply Hincl | assumption].
    + intros [= -> _ _]. now apply Hexit.
  - intros g w line rest Hquit.
    assert (Hcmd : get_input_type tbl (PyStr.lower line) = "command")
      by (apply get_input_type_command; simpl in Hquit |- *; tauto).
    assert (Hhelp : PyStr.contains (PyStr.lower line) ["help"; "h"] = false).
    { apply contains_false. simpl in Hquit |- *.
      intros [H | [H | []]]; rewrite <- H in Hquit;
        intuition discriminate. }
    unfold play_round. cbn [stdin set_stdin length play_round_loop].
    unfold input. cbn [stdin set_stdin]. rewrite Hcmd. cbn [String.eqb].
    change ("command" =? "move")%string with false.
    change ("command" =? "command")%string with true.
    unfold process_command. rewrite Hhelp. reflexivity.
Qed.

Lemma exit_on_quit_only_witness :
  let w := {| stdin := ["rock"; "Quit"; "paper"];
              rand := fun _ => 0%nat;
              drawn := 0 |} in
  (exists g w', play_game SETTINGS MOVES w = Some (Raise SystemExit, g, w')) /\
  (exists l, In l (stdin w) /\ In (PyStr.lower l) ["quit"; "q!"]) /\
  play_round SETTINGS MOVES create_game (set_stdin ["Q!"; "rock"] w) =
    Some (Raise SystemExit, create_game, set_stdin ["rock"] w).
Proof.
  intros w.
  destruct (exit_on_quit_only SETTINGS MOVES) as [Honly Hquit].
  split; [do 2 eexists; reflexivity|]. split.
  - eapply (Honly w). reflexivity.
  - apply (Hquit create_game w "Q!" ["rock"]). simpl. tauto.
Defined.

(** ** The round counter *)

(** X9. The round counter counts calls of [process_round], ties and
    failed calls included: after a run of rounds that went through it has
    advanced by the number of rounds; when a round raised, the run stopped
    there, and the counter has advanced by exactly the number of rounds up
    to and including the failing one. *)
Theorem current_round_counts_calls (cfg : settings) (tbl : catalog)
  (rounds : list (string * string)) (g g' : game) (r : res unit) :
  process_rounds cfg tbl g rounds = (r, g') ->
  (r = Ok tt ->
   current_round g' = current_round g + Z.of_nat (length rounds)) /\
  (r <> Ok tt ->
   exists played failed rest k g1,
     rounds = played ++ failed :: rest /\
     process_rounds cfg tbl g played = (Ok tt, g1) /\
     process_round cfg tbl g1 (fst failed) (snd failed)
       = (Raise (KeyError k), g') /\
     r = Raise (KeyError k) /\
     current_round g' = current_round g + Z.of_nat (length played) + 1).
Proof.
  revert g. induction rounds as [|[a b] rounds IH]; intros g.
  - simpl. intros [= <- <-]. split; [lia | intros H; now elim H].
  - cbn [process_rounds].
    destruct (process_round cfg tbl g a b) as [[[]|e] g1] eqn:Hrun.
    + destruct (process_round_Ok _ _ _ _ _ _ Hrun) as [winner Hw].
      destruct (process_round_winner cfg tbl g _ _ _ Hw)
        as [g'' [Hrun' [Hcr _]]].
      rewrite Hrun in Hrun'. injection Hrun' as <-.
      intros Hrest. destruct (IH g1 Hrest) as [Hok Hfail].
      split.
      * intros Hr. specialize (Hok Hr).
        rewrite length_cons, Nat2Z.inj_succ. lia.
      * intros Hr.
        destruct (Hfail Hr)
          as [played [failed [rest [k [g2 [Heq [Hplayed [Hbad [Hk Hcount]]]]]]]]].
        exists ((a, b) :: played), failed, rest, k, g2.
        split; [now rewrite Heq|].
        split; [cbn [process_rounds]; now rewrite Hrun|].
        split; [exact Hbad|]. split; [exact Hk|].
        rewrite length_cons, Nat2Z.inj_succ. lia.
    + intros [= <- <-]. split; [discriminate|]. intros _.
      destruct (process_round_Raise _ _ _ _ _ _ _ Hrun) as [k ->].
      exists [], (a, b), rounds, k, g.
      split; [reflexivity|]. split; [reflexivity|].
      split; [exact Hrun|]. split; [reflexivity|].
      unfold process_round in Hrun.
      destruct (determine_round_winner cfg tbl a b); [discriminate|].
      injection Hrun as _ <-. simpl. lia.
Qed.

Lemma current_round_counts_calls_witness :
  let rounds := [("rock", "rock"); ("paper", "rock"); ("paper", "stone");
                 ("rock", "paper")] in
  let g' := snd (process_rounds SETTINGS MOVES create_game rounds) in
  current_round g' = 4 /\
  (Raise (KeyError "stone") = Ok tt ->
   current_round g' = current_round create_game + Z.of_nat (length rounds)) /\
  (Raise (KeyError "stone") <> Ok tt ->
   exists played failed rest k g1,
     rounds = played ++ failed :: rest /\
     process_rounds SETTINGS MOVES create_game played = (Ok tt, g1) /\
     process_round SETTINGS MOVES g1 (fst failed) (snd failed)
       = (Raise (KeyError k), g') /\
     @Raise unit (KeyError "stone") = Raise (KeyError k) /\
     current_round g' =
       current_round create_game + Z.of_nat (length played) + 1).
Proof.
  intros rounds g'. split; [reflexivity|].
  apply (current_round_counts_calls SETTINGS MOVES rounds create_game g'
           (Raise (KeyError "stone"))).
  reflexivity.
Defined.

(** ** An opponent without a name *)

(** X10. The loop of [play_game] tests the truth value of
    [grand_winner], and the empty string is false: against an opponent
    whose configured name is empty the opponent's third point does not end
    the match, and a match that ends normally ends with the user as grand
    winner, whatever the opponent's score. *)
Theorem nameless_opponent_never_wins (cfg : settings) (tbl : catalog) :
  opponent_name cfg = "" ->
  (forall g,
     user_score g <= 2 ->
     PyStr.truthy (determine_grand_winner cfg g) = false) /\
  (forall w g w',
     play_game cfg tbl w = Some (Ok tt, g, w') ->
     grand_winner g = Some "user" /\ 3 <= user_score g).
Proof.
  intros Hname. split.
  - intros g Hu. unfold determine_grand_winner.
    destruct (Z.gtb_spec (user_score g) 2); [lia|].
    destruct (opponent_score g >? 2); [|reflexivity].
    now rewrite Hname.
  - intros w g w' Hplay.
    destruct (play_game_Ok cfg tbl w w' g Hplay) as [Hreach Hover].
    assert (Hgw : grand_winner g = determine_grand_winner cfg g).
    { clear - Hreach.
      induction Hreach as [|g g' um om Hreach IH Hopen Hrun];
        [reflexivity|].
      destruct (process_round_Ok _ _ _ _ _ _ Hrun) as [winner Hw].
      destruct (process_round_winner cfg tbl g _ _ _ Hw)
        as [g'' [Hrun' [_ [_ [_ [_ [Hgw _]]]]]]].
      rewrite Hrun in Hrun'. now injection Hrun' as <-. }
    rewrite Hgw in Hover |- *. unfold determine_grand_winner in *.
    destruct (Z.gtb_spec (user_score g) 2); [split; [reflexivity | lia]|].
    destruct (opponent_score g >? 2); [|discriminate].
    rewrite Hname in Hover. discriminate.
Qed.

Lemma nameless_opponent_never_wins_witness :
  let cfg := {| opponent_name := "";
                scoreboard_width := 23;
                points_to_win := 3 |} in
  let oracle := fun n => if (n <? 3)%nat then 1%nat else 2%nat in
  let w := {| stdin := ["r"; ""; "r"; ""; "r"; "";
                        "r"; ""; "r"; ""; "r"; ""; ""];
              rand := oracle;
              drawn := 0 |} in
  let w' := {| stdin := []; rand := oracle; drawn := 6 |} in
  let g := {| current_round := 7;
              tiebreaker_round := false;
              user_score := 3;
              opponent_score := 3;
              round_winner := Some "user";
              grand_winner := Some "user" |} in
  play_game cfg MOVES w = Some (Ok tt, g, w') /\
  grand_winner g = Some "user" /\ 3 <= user_score g.
Proof.
  intros cfg oracle w w' g.
  destruct (nameless_opponent_never_wins cfg MOVES eq_refl) as [_ Hends].
  split; [vm_compute; reflexivity|].
  apply (Hends w g w'). vm_compute. reflexivity.
Defined.

(** ** Aliases of more than one letter *)



(** ** The message for a round *)

(** X12. With an opponent not called "user", after a round between two
    moves of the catalog [display_round_results] tells the user the round
    is won when the table lists the opponent's move under the user's move,
    lost when it lists the user's move under the opponent's, and tied
    otherwise, which is exactly when the two moves are the same. *)
Theorem round_message_follows_table (cfg : settings) (g : game)
  (user_move opponent_move : string) :
  opponent_name cfg <> "user" ->
  In user_move (keys MOVES) -> In opponent_move (keys MOVES) ->
  exists g',
    process_round cfg MOVES g user_move opponent_move = (Ok tt, g') /\
    display_round_results_key cfg g' =
      (if beats_in MOVES user_move opponent_move then "user_wins_round"
       else if beats_in MOVES opponent_move user_move
            then "opponent_wins_round"
            else "round_tied") /\
    (display_round_results_key cfg g' = "round_tied" <->
     user_move = opponent_move).
Proof.
  intros Hname Hu Ho.
  pose proof (determine_round_winner_keys cfg MOVES _ _ Hu Ho) as Hw.
  destruct (process_round_winner cfg MOVES g _ _ _ Hw)
    as [g' [Hrun [_ [_ [_ [Hrw _]]]]]].
  exists g'. split; [exact Hrun|].
  unfold display_round_results_key. rewrite Hrw.
  apply String.eqb_neq in Hname.
  destruct (String.eqb_spec user_move opponent_move) as [->|Hne].
  - rewrite MOVES_irreflexive by assumption. simpl. tauto.
  - rewrite (MOVES_one_way opponent_move user_move) by auto.
    destruct (beats_in MOVES user_move opponent_move); simpl.
    + split; [reflexivity|]. split; [discriminate | contradiction].
    + rewrite Hname, String.eqb_refl.
      split; [reflexivity|]. split; [discriminate | contradiction].
Qed.

Lemma round_message_follows_table_witness :
  exists g',
    process_round SETTINGS MOVES create_game "lizard" "spock" = (Ok tt, g') /\
    display_round_results_key SETTINGS g' =
      (if beats_in MOVES "lizard" "spock" then "user_wins_round"
       else if beats_in MOVES "spock" "lizard"
            then "opponent_wins_round"
            else "round_tied") /\
    (display_round_results_key SETTINGS g' = "round_tied" <->
     "lizard" = "spock").
Proof.
  apply (round_message_follows_table SETTINGS create_game "lizard" "spock").
  - discriminate.
  - simpl. tauto.
  - simpl. tauto.
Defined.

(** ** Asking for a valid input *)

Lemma get_user_input_loop_spec (tbl : catalog) (fuel : nat) (w w' : world)
  (r : res string) :
  get_user_input_loop tbl fuel w = Some (r, w') ->
  incl (stdin w') (stdin w) /\
  match r with
  | Ok s =>
      is_valid_input tbl s = true /\
      exists line, In line (stdin w) /\ s = PyStr.lower line
  | Raise e =>
      e = EOFError \/
      (e = SystemExit /\
       exists l, In l (stdin w) /\ In (PyStr.lower l) ["quit"; "q!"])
  end.
Proof.
  revert w. induction fuel as [|fuel IH]; intros w; [discriminate|].
  cbn [get_user_input_loop]. unfold input.
  destruct (stdin w) as [|line rest] eqn:Ein.
  - intros [= <- <-]. rewrite Ein. split; [apply incl_refl | tauto].
  - cbv zeta.
    destruct (is_valid_input tbl (PyStr.lower line)) eqn:Evalid.
    + intros [= <- <-]. simpl. split; [apply incl_tl, incl_refl|].
      split; [exact Evalid|]. exists line. split; [now left | reflexivity].
    + destruct (prompt_enter_to_continue tbl true (set_stdin rest w))
        as [r1 w1] eqn:Ep.
      apply prompt_enter_to_continue_result in Ep. simpl in Ep.
      destruct Ep as [Hincl [Hr Hexit]].
      destruct r1 as [[]|e].
      * intros Hrec. apply IH in Hrec. destruct Hrec as [Hincl' Hres].
        split; [apply incl_tl; eapply incl_tran; eassumption|].
        destruct r as [s|e].
        -- destruct Hres as [Hvalid [l [Hl Hs]]].
           split; [exact Hvalid|]. exists l.
           split; [right; now apply Hincl | exact Hs].
        -- destruct Hres as [He | [He [l [Hl Hq]]]]; [now left|].
           right. split; [exact He|]. exists l.
           split; [right; now apply Hincl | exact Hq].
      * intros [= <- <-]. split; [now apply incl_tl|].
        destruct Hr as [Hr | [Hr | Hr]]; [discriminate | | ].
        -- injection Hr as ->. now left.
        -- right. injection Hr as ->. split; [reflexivity|].
           destruct (Hexit eq_refl) as [l [Hl Hq]].
           exists l. split; [now right | exact Hq].
Qed.

Lemma get_user_input_loop_fuel (tbl : catalog) (fuel : nat) (w : world) :
  (length (stdin w) < fuel)%nat ->
  get_user_input_loop tbl fuel w <> None.
Proof.
  revert w. induction fuel as [|fuel IH]; intros w Hfuel; [lia|].
  cbn [get_user_input_loop]. unfold input.
  destruct (stdin w) as [|line rest] eqn:Ein; [discriminate|].
  cbv zeta. destruct (is_valid_input tbl (PyStr.lower line));
    [discriminate|].
  destruct (prompt_enter_to_continue tbl true (set_stdin rest w))
    as [r1 w1] eqn:Ep.
  apply prompt_enter_to_continue_shorter in Ep. simpl in Ep.
  destruct r1 as [[]|e]; [|discriminate].
  apply IH. simpl in Hfuel. lia.
Qed.

(** X13. On the catalog of the program, what [get_user_input] returns is
    one of the pending lines in lower case, and a valid input: a move
    name, an alias or a command token, which the function does not tell
    apart; it is its own lower-case form.  It reads pending lines only, and
    it ends on [SystemExit] only when a line typed at the prompt after a
    rejected line read "quit" or "q!". *)
Theorem get_user_input_returns_valid (w w' : world) (r : res string) :
  get_user_input MOVES w = Some (r, w') ->
  incl (stdin w') (stdin w) /\
  (forall s,
     r = Ok s ->
     is_valid_input MOVES s = true /\
     get_input_type MOVES s <> "invalid" /\
     PyStr.lower s = s /\
     exists line, In line (stdin w) /\ s = PyStr.lower line) /\
  (r = Raise SystemExit ->
   exists l, In l (stdin w) /\ In (PyStr.lower l) ["quit"; "q!"]).
Proof.
  unfold get_user_input. intros Hloop.
  apply get_user_input_loop_spec in Hloop.
  destruct Hloop as [Hincl Hres]. split; [exact Hincl|]. split.
  - intros s ->. destruct Hres as [Hvalid [line [Hl Hs]]].
    split; [exact Hvalid|]. split; [|split].
    + unfold get_input_type. rewrite Hvalid. cbn [negb].
      destruct (PyStr.contains s _); discriminate.
    + rewrite Hs. apply lower_idempotent.
    + exists line. tauto.
  - intros ->. destruct Hres as [He | [_ Hq]]; [discriminate | exact Hq].
Qed.

Lemma get_user_input_returns_valid_witness :
  let w := {| stdin := ["stone"; "ok"; "Q!"; "rock"];
              rand := fun n => n;
              drawn := 0 |} in
  get_user_input MOVES w = Some (Ok "q!", set_stdin ["rock"] w) /\
  incl (stdin (set_stdin ["rock"] w)) (stdin w) /\
  (forall s,
     Ok "q!" = Ok s ->
     is_valid_input MOVES s = true /\
     get_input_type MOVES s <> "invalid" /\
     PyStr.lower s = s /\
     exists line, In line (stdin w) /\ s = PyStr.lower line) /\
  (Ok "q!" = Raise SystemExit ->
   exists l, In l (stdin w) /\ In (PyStr.lower l) ["quit"; "q!"]).
Proof.
  intros w. split; [reflexivity|].
  apply (get_user_input_returns_valid w (set_stdin ["rock"] w) (Ok "q!")).
  reflexivity.
Defined.

(** ** Prompts and help *)

Lemma not_command (tbl : catalog) (s : string) :
  ~ In s ["help"; "quit"; "h"; "q!"] ->
  (get_input_type tbl s =? "command")%string = false.
Proof.
  intros Hnot. apply String.eqb_neq. intros Hcmd.
  now apply Hnot, (get_input_type_command_In tbl).
Qed.

Lemma is_command (tbl : catalog) (s : string) :
  In s ["help"; "quit"; "h"; "q!"] ->
  (get_input_type tbl s =? "command")%string = true.
Proof.
  intros Hs. apply String.eqb_eq. now apply get_input_type_command.
Qed.

Lemma prompt_enter_lines_help (tbl : catalog) (helps tail : list string) :
  Forall (fun l => In (PyStr.lower l) ["help"; "h"]) helps ->
  prompt_enter_lines tbl true (helps ++ tail) =
  prompt_enter_lines tbl true tail.
Proof.
  induction 1 as [|l helps Hl _ IH]; [reflexivity|].
  cbn [app prompt_enter_lines].
  rewrite (is_command tbl (PyStr.lower l)) by (simpl in Hl |- *; tauto).
  apply contains_In in Hl. cbv zeta. rewrite Hl. exact IH.
Qed.

(** X14. [prompt_enter_to_continue] reads one line, and one more after
    every request for help ("help" or "h", in any letter case).  After up
    to a hundred such requests in a row (each nests two calls, and Python
    gives up with a [RecursionError] after some hundreds of them, far
    beyond that), a line that is no command ends it normally, "quit" or
    "q!" ends it on [SystemExit], and the end of the input on [EOFError].
    With [allow_command] off it takes one line, whatever the line says; so
    the first prompt of [display_introduction] cannot be used to quit. *)
Theorem prompt_enter_to_continue_help (tbl : catalog) (w : world)
  (helps : list string) (line : string) (rest : list string) :
  (length helps <= 100)%nat ->
  Forall (fun l => In (PyStr.lower l) ["help"; "h"]) helps ->
  prompt_enter_to_continue tbl true (set_stdin helps w) =
    (Raise EOFError, set_stdin [] w) /\
  (~ In (PyStr.lower line) ["help"; "quit"; "h"; "q!"] ->
   prompt_enter_to_continue tbl true (set_stdin (helps ++ line :: rest) w) =
     (Ok tt, set_stdin rest w)) /\
  (In (PyStr.lower line) ["quit"; "q!"] ->
   prompt_enter_to_continue tbl true (set_stdin (helps ++ line :: rest) w) =
     (Raise SystemExit, set_stdin rest w)) /\
  prompt_enter_to_continue tbl false (set_stdin (line :: rest) w) =
    (Ok tt, set_stdin rest w) /\
  display_introduction tbl false (set_stdin (line :: rest) w) =
    prompt_enter_to_continue tbl true (set_stdin rest w).
Proof.
  intros _ Hhelps. unfold display_introduction, prompt_enter_to_continue.
  cbn [stdin set_stdin rand drawn].
  split; [|split; [|split; [|split]]].
  - rewrite <- (app_nil_r helps).
    rewrite (prompt_enter_lines_help tbl helps [] Hhelps). reflexivity.
  - intros Hnot.
    rewrite (prompt_enter_lines_help tbl helps _ Hhelps).
    cbn [prompt_enter_lines]. cbv zeta.
    now rewrite (not_command tbl _ Hnot).
  - intros Hquit.
    rewrite (prompt_enter_lines_help tbl helps _ Hhelps).
    cbn [prompt_enter_lines]. cbv zeta.
    rewrite (is_command tbl (PyStr.lower line))
      by (simpl in Hquit |- *; tauto).
    assert (Hhelp : PyStr.contains (PyStr.lower line) ["help"; "h"] = false).
    { apply contains_false. simpl in Hquit |- *.
      intros [H | [H | []]]; rewrite <- H in Hquit;
        intuition discriminate. }
    now rewrite Hhelp.
  - reflexivity.
  - reflexivity.
Qed.

Lemma prompt_enter_to_continue_help_witness :
  let w := {| stdin := []; rand := fun n => n; drawn := 0 |} in
  prompt_enter_to_continue MOVES true (set_stdin ["H"; "help"] w) =
    (Raise EOFError, set_stdin [] w) /\
  (~ In (PyStr.lower "ok") ["help"; "quit"; "h"; "q!"] ->
   prompt_enter_to_continue MOVES true
     (set_stdin (["H"; "help"] ++ "ok" :: ["rock"]) w) =
     (Ok tt, set_stdin ["rock"] w)) /\
  (In (PyStr.lower "ok") ["quit"; "q!"] ->
   prompt_enter_to_continue MOVES true
     (set_stdin (["H"; "help"] ++ "ok" :: ["rock"]) w) =
     (Raise SystemExit, set_stdin ["rock"] w)) /\
  prompt_enter_to_continue MOVES false (set_stdin ("ok" :: ["rock"]) w) =
    (Ok tt, set_stdin ["rock"] w) /\
  display_introduction MOVES false (set_stdin ("ok" :: ["rock"]) w) =
    prompt_enter_to_continue MOVES true (set_stdin ["rock"] w).
Proof.
  intros w.
  apply (prompt_enter_to_continue_help MOVES w ["H"; "help"] "ok" ["rock"]).
  - simpl. lia.
  - repeat constructor; simpl; tauto.
Defined.

(** ** The options shown to the user *)

Lemma join_chars_short (a : string) :
  (String.length a <= 1)%nat ->
  PyText.join ", " (PyText.chars a) = a.
Proof.
  destruct a as [|c [|c' a]]; simpl; try reflexivity. lia.
Qed.

(** X15. When every alias of the catalog is at most one character long,
    the list behind [display_valid_choices] has one entry "name (alias)"
    per move, in catalog order, followed by one per command, and the names
    and aliases it shows are exactly the inputs [is_valid_input]
    accepts. *)
Theorem options_list_valid_inputs (cfg : settings) (tbl : catalog) :
  (forall d, In d (values tbl) -> (String.length (alias d) <= 1)%nat) ->
  let shown := map (fun '(m, d) => (m, alias d)) tbl ++ COMMANDS in
  generate_description cfg tbl "all_inputs" =
    Some (map (fun '(name, a) => (name ++ " (" ++ a ++ ")")%string) shown) /\
  (forall s,
     is_valid_input tbl s = true <->
     exists name a, In (name, a) shown /\ (s = name \/ s = a)).
Proof.
  intros Hshort shown. split.
  - unfold generate_description. cbn [String.eqb Ascii.eqb Bool.eqb].
    f_equal. unfold shown. rewrite map_app, map_map. f_equal.
    apply map_ext_in. intros [m d] Hin.
    rewrite join_chars_short; [reflexivity|].
    apply Hshort. apply (in_map snd) in Hin. exact Hin.
  - intros s. unfold is_valid_input. rewrite contains_In. unfold shown.
    split.
    + intros Hin. apply in_app_or in Hin. destruct Hin as [Hin|Hin].
      * apply in_app_or in Hin. destruct Hin as [Hin|Hin].
        -- unfold keys in Hin. apply in_map_iff in Hin.
           destruct Hin as [[m d] [Hs Hin]]. simpl in Hs. subst s.
           exists m, (alias d). split; [|now left].
           apply in_or_app. left.
           apply in_map_iff. exists (m, d). split; [reflexivity | exact Hin].
        -- apply in_map_iff in Hin. destruct Hin as [d [Hs Hin]].
           unfold values in Hin. apply in_map_iff in Hin.
           destruct Hin as [[m d'] [Hd Hin]]. simpl in Hd. subst d' s.
           exists m, (alias d). split; [|now right].
           apply in_or_app. left.
           apply in_map_iff. exists (m, d). split; [reflexivity | exact Hin].
      * simpl in Hin.
        destruct Hin as [<- | [<- | [<- | [<- | []]]]].
        -- exists "help", "h". split; [|now left].
           apply in_or_app. right. simpl. tauto.
        -- exists "quit", "q!". split; [|now left].
           apply in_or_app. right. simpl. tauto.
        -- exists "help", "h". split; [|now right].
           apply in_or_app. right. simpl. tauto.
        -- exists "quit", "q!". split; [|now right].
           apply in_or_app. right. simpl. tauto.
    + intros [name [a [Hin Hs]]]. apply in_app_or in Hin.
      destruct Hin as [Hin|Hin].
      * apply in_map_iff in Hin. destruct Hin as [[m d] [Heq Hin]].
        injection Heq as <- <-.
        apply in_or_app. left. apply in_or_app.
        destruct Hs as [-> | ->].
        -- left. apply (in_map fst) in Hin. exact Hin.
        -- right. apply (in_map snd) in Hin. apply (in_map alias) in Hin.
           exact Hin.
      * apply in_or_app. right.
        destruct Hs as [-> | ->].
        -- apply in_or_app. left. apply (in_map fst) in Hin. exact Hin.
        -- apply in_or_app. right. apply (in_map snd) in Hin. exact Hin.
Qed.

Lemma options_list_valid_inputs_witness :
  let shown := map (fun '(m, d) => (m, alias d)) MOVES ++ COMMANDS in
  generate_description SETTINGS MOVES "all_inputs" =
    Some (map (fun '(name, a) => (name ++ " (" ++ a ++ ")")%string) shown) /\
  (forall s,
     is_valid_input MOVES s = true <->
     exists name a, In (name, a) shown /\ (s = name \/ s = a)).
Proof.
  apply (options_list_valid_inputs SETTINGS MOVES).
  intros d Hd. simpl in Hd.
  repeat match type of Hd with
         | _ \/ _ => destruct Hd as [Hd|Hd]
         | False => contradiction
         end; subst d; simpl; lia.
Defined.

(** ** The scoreboard *)

Lemma string_length_app (a b : string) :
  String.length (a ++ b) = (String.length a + String.length b)%nat.
Proof. induction a as [|c a IH]; simpl; [reflexivity | now rewrite IH]. Qed.

Lemma length_fill (c : ascii) (n : nat) : String.length (PyText.fill c n) = n.
Proof. induction n as [|n IH]; simpl; [reflexivity | now rewrite IH]. Qed.

Lemma length_format_left (width : Z) (s : string) :
  String.length (PyText.format_left width s) =
  Nat.max (Z.to_nat width) (String.length s).
Proof.
  unfold PyText.format_left, PyText.padding.
  rewrite string_length_app, length_fill. lia.
Qed.

Lemma length_format_right (width : Z) (s : string) :
  String.length (PyText.format_right width s) =
  Nat.max (Z.to_nat width) (String.length s).
Proof.
  unfold PyText.format_right, PyText.padding.
  rewrite string_length_app, length_fill. lia.
Qed.

Lemma length_format_center (c : ascii) (width : Z) (s : string) :
  String.length (PyText.format_center c width s) =
  Nat.max (Z.to_nat width) (String.length s).
Proof.
  unfold PyText.format_center, PyText.padding.
  rewrite !string_length_app, !length_fill.
  pose proof (Nat.Div0.div_le_upper_bound
                (Z.to_nat width - String.length s) 2
                (Z.to_nat width - String.length s)) as Hhalf.
  assert ((Z.to_nat width - String.length s) / 2 <=
          Z.to_nat width - String.length s)%nat by (apply Hhalf; lia).
  lia.
Qed.

Lemma length_str_score (n : Z) :
  0 <= n <= 3 -> String.length (PyText.str n) = 1%nat.
Proof.
  intros Hn.
  assert (Hcases : n = 0 \/ n = 1 \/ n = 2 \/ n = 3) by lia.
  destruct Hcases as [-> | [-> | [-> | ->]]]; reflexivity.
Qed.

(** X16. Along a match, with a board at least 12 wide and an opponent name
    short enough for its column, [display_scoreboard] prints four lines:
    a header at least as wide as the board, which is the tiebreaker banner
    at 2-2 and the round number otherwise; the two scores in two columns
    around a bar, [2 * (width // 2) + 1] characters in all; a border of
    [width] dashes; and an empty line.  The scores line is as wide as the
    border exactly when the width is odd. *)
Theorem scoreboard_lines (cfg : settings) (tbl : catalog) (g : game) :
  opponent_name cfg <> "" ->
  opponent_name cfg <> "user" ->
  12 <= scoreboard_width cfg ->
  Z.of_nat (String.length (opponent_name cfg)) + 3
    <= scoreboard_width cfg / 2 ->
  reachable cfg tbl g ->
  exists header_line scores_line border,
    display_scoreboard cfg g = [header_line; scores_line; border; ""] /\
    scoreboard_width cfg <= Z.of_nat (String.length header_line) /\
    (user_score g = 2 /\ opponent_score g = 2 ->
     header_line =
       PyText.format_center "-" (scoreboard_width cfg)
         " TIEBREAKER ROUND ") /\
    (~ (user_score g = 2 /\ opponent_score g = 2) ->
     header_line =
       PyText.format_center "-" (scoreboard_width cfg)
         (" ROUND " ++ PyText.str (current_round g) ++ " ")) /\
    Z.of_nat (String.length scores_line) =
      2 * (scoreboard_width cfg / 2) + 1 /\
    Z.of_nat (String.length border) = scoreboard_width cfg /\
    (String.length scores_line = String.length border <->
     scoreboard_width cfg mod 2 = 1).
Proof.
  intros Hname Huser Hwide Hfits Hreach.
  destruct (reachable_state cfg tbl g Hname Huser Hreach)
    as [Hu [Ho [_ [_ [_ [Hflag _]]]]]].
  unfold display_scoreboard. cbv zeta. do 3 eexists.
  split; [reflexivity|].
  assert (Hscores :
    Z.of_nat (String.length
      (PyText.format_left (scoreboard_width cfg / 2)
         ("You: " ++ PyText.str (user_score g)) ++ "|" ++
       PyText.format_right (scoreboard_width cfg / 2)
         (opponent_name cfg ++ ": " ++ PyText.str (opponent_score g))))
    = 2 * (scoreboard_width cfg / 2) + 1).
  { rewrite !string_length_app, length_format_left, length_format_right.
    rewrite !string_length_app.
    rewrite (length_str_score _ Hu), (length_str_score _ Ho).
    cbn [String.length].
    assert (Hcol : 6 <= scoreboard_width cfg / 2)
      by (apply Z.div_le_lower_bound; lia).
    revert Hfits Hcol. generalize (scoreboard_width cfg / 2).
    generalize (String.length (opponent_name cfg)). lia. }
  assert (Hborder :
    Z.of_nat (String.length (PyText.times "-" (scoreboard_width cfg)))
    = scoreboard_width cfg).
  { unfold PyText.times. rewrite length_fill. lia. }
  split; [|split; [|split; [|split; [|split]]]].
  - rewrite length_format_center. lia.
  - intros [Hu2 Ho2]. rewrite Hflag, Hu2, Ho2. reflexivity.
  - intros Hnot. rewrite Hflag.
    destruct (Z.eqb_spec (user_score g) 2);
      destruct (Z.eqb_spec (opponent_score g) 2);
      try reflexivity. tauto.
  - exact Hscores.
  - exact Hborder.
  - assert (Hdm : scoreboard_width cfg =
                  2 * (scoreboard_width cfg / 2) + scoreboard_width cfg mod 2)
      by (apply Z.div_mod; lia).
    assert (Hmod : 0 <= scoreboard_width cfg mod 2 < 2)
      by (apply Z.mod_pos_bound; lia).
    revert Hscores Hborder Hdm Hmod.
    generalize (scoreboard_width cfg / 2), (scoreboard_width cfg mod 2).
    intros half parity Hscores Hborder Hdm Hmod. split; intros H.
    + apply (f_equal Z.of_nat) in H. rewrite Hscores, Hborder in H. lia.
    + apply Nat2Z.inj. rewrite Hscores, Hborder. lia.
Qed.

Lemma scoreboard_lines_witness :
  let g := snd (process_rounds SETTINGS MOVES create_game
                  [("rock", "paper"); ("paper", "rock")]) in
  display_scoreboard SETTINGS g =
    ["------- ROUND 3 -------"; "You: 1     |   Monty: 1";
     "-----------------------"; ""] /\
  exists header_line scores_line border,
    display_scoreboard SETTINGS g = [header_line; scores_line; border; ""] /\
    scoreboard_width SETTINGS <= Z.of_nat (String.length header_line) /\
    (user_score g = 2 /\ opponent_score g = 2 ->
     header_line =
       PyText.format_center "-" (scoreboard_width SETTINGS)
         " TIEBREAKER ROUND ") /\
    (~ (user_score g = 2 /\ opponent_score g = 2) ->
     header_line =
       PyText.format_center "-" (scoreboard_width SETTINGS)
         (" ROUND " ++ PyText.str (current_round g) ++ " ")) /\
    Z.of_nat (String.length scores_line) =
      2 * (scoreboard_width SETTINGS / 2) + 1 /\
    Z.of_nat (String.length border) = scoreboard_width SETTINGS /\
    (String.length scores_line = String.length border <->
     scoreboard_width SETTINGS mod 2 = 1).
Proof.
  intros g. split; [reflexivity|].
  apply (scoreboard_lines SETTINGS MOVES g).
  - discriminate.
  - discriminate.
  - simpl. lia.
  - vm_compute. discriminate.
  - unfold g.
    eapply reach_round with (user_move := "paper") (opponent_move := "rock");
      [| |reflexivity]; [|reflexivity].
    eapply reach_round with (user_move := "rock") (opponent_move := "paper");
      [| |reflexivity]; [|reflexivity].
    apply reach_create.
Defined.

(** ** A whole match on the catalog of the program *)




